(** * AudioFFT: sample buffering, windowed transform and result extraction

    A shallow embedding of [src/AudioLibs/AudioFFT.h] (arduino-audio-tools)
    and the properties of its buffering and result-extraction code.

    - C++ [int] values are integers in [Z]; buffer sizes and bin numbers stay
      far below 2^31, so no signed overflow is involved.  The one unsigned
      conversion of the file ([uint16_t] in the constructor and in
      [isPowerOfTwo]) is written out as a reduction modulo 2^16.
    - C++ [float] is IEEE-754 binary32, modelled by [spec_float] with
      precision 24 and maximal exponent 128 and the operations of
      [SpecFloat] (round to nearest, ties to even).
    - [FFTDriver] is the abstract class of the source: a type class here.
    - Calls to the driver, to the logger and to the user callback are recorded
      in a ghost [trace] of the pipeline state.  The callback is taken not
      to change the pipeline, as the class expects of it.
    - The loop of [processSamples] takes fuel, since it does not end when
      [channels] is 0; a read outside the caller's buffer, undefined in
      C++, ends the call with [OverRead]. *)

From Stdlib Require Import ZArith List Bool Lia Strings.Byte Strings.String.
From Stdlib Require Import Floats.SpecFloat.
From stdpp Require Import base tactics list.

Local Open Scope Z_scope.

(** ** Exhaustive checks over the [n]-bit unsigned integers *)

Fixpoint forall_bits (n : nat) (f : Z -> bool) : bool :=
  match n with
  | O => f 0
  | S n => forall_bits n (fun x => f (2 * x)) && forall_bits n (fun x => f (2 * x + 1))
  end.

(** ** binary32 *)

Module F32.

Definition prec : Z := 24.
Definition emax : Z := 128.

Definition float : Type := spec_float.

(** Conversion [int -> float] (implicit in [float * int] and in
    [static_cast<float>]). *)
Definition of_int (z : Z) : float := binary_normalize prec emax z 0 false.

Definition mul (x y : float) : float := SFmul prec emax x y.
Definition div (x y : float) : float := SFdiv prec emax x y.

(** [a > b] on floats; false as soon as one side is a NaN. *)
Definition gt (a b : float) : bool := SFltb b a.

Definition zero : float := S754_zero false.

Definition is_nan (x : float) : bool :=
  match x with S754_nan => true | _ => false end.

(** *** Integers that binary32 holds exactly *)

(** Exponent and 24-bit mantissa of the normalised form of a positive
    integer. *)
Definition exponent (z : Z) : Z := Z.log2 z - 23.
Definition mantissa (z : Z) : Z := Z.shiftl z (- exponent z).

(** A non-negative integer fits when it has at most 24 significant bits:
    below the 24 leading bits there are only zeros. *)
Definition fits (z : Z) : bool := z mod 2 ^ Z.max 0 (exponent z) =? 0.

(** The binary32 number equal to a non-negative integer that fits. *)
Definition represent (z : Z) : float :=
  match z with
  | Zpos _ => S754_finite false (Z.to_pos (mantissa z)) (exponent z)
  | _ => S754_zero false
  end.

(** The integer a binary32 number is equal to, when it is one. *)
Definition to_Z (x : float) : option Z :=
  match x with
  | S754_zero _ => Some 0
  | S754_finite s m e =>
      let sign v := if s then - v else v in
      if 0 <=? e then Some (sign (Zpos m * 2 ^ e))
      else if Zpos m mod 2 ^ (- e) =? 0 then Some (sign (Zpos m / 2 ^ (- e)))
      else None
  | _ => None
  end.

End F32.

(** ** Result of the FFT: [struct AudioFFTResult] *)

Module AudioFFTResult.

Record t : Type := mk {
  bin : Z;
  magnitude : F32.float;
  frequency : F32.float
}.

Definition set_magnitude (m : F32.float) (r : t) : t :=
  mk (bin r) m (frequency r).

End AudioFFTResult.

(** ** The abstract transform engine: [class FFTDriver] *)

Module FFTDriver.

Class Driver (D : Type) : Type := {
  begin : Z -> D -> D;
  end_ : D -> D;
  setValue : Z -> Z -> D -> D;
  fft : D -> D;
  magnitude : Z -> D -> F32.float;
  isValid : D -> bool
}.

End FFTDriver.

(** ** Configuration: [struct AudioFFTConfig : AudioBaseInfo]

    Modelled from the spec: [AudioBaseInfo] is declared outside the two source
    files; it contributes the integer fields [sample_rate], [channels] and
    [bits_per_sample].  A callback is a C function pointer: it is identified
    by a number, [None] being [nullptr]. *)

Module AudioFFTConfig.

Record t : Type := mk {
  sample_rate : Z;
  channels : Z;
  bits_per_sample : Z;
  callback : option nat;
  channel_used : Z
}.

Definition default : t := mk 44100 2 16 None 0.

End AudioFFTConfig.

(** ** Observable events

    The calls the pipeline makes on the engine, the clock, the log and the
    callback, in the order in which it makes them.  [DriverFft],
    [MillisRead] and [CallbackInvoked] also record the fill cursor (and the
    result time) the pipeline holds at the moment of the call, which is what
    fixes the order of the assignments of [fft()] between the calls. *)

Inductive Event : Type :=
| DriverBegin (len : Z)
| DriverEnd
| DriverSetValue (pos value : Z)
| DriverFft (cursor : Z) (result_time : Z)
| MillisRead (cursor : Z)
| LogError
| CallbackInvoked (cb : nat) (cursor : Z) (result_time : Z).

(** ** Outcome of a call that reads the caller's buffer and loops *)

Inductive outcome (A : Type) : Type :=
| Done (a : A)
| OverRead
| OutOfFuel.

Arguments Done {A} a.
Arguments OverRead {A}.
Arguments OutOfFuel {A}.

Definition obind {A B : Type} (m : outcome A) (k : A -> outcome B) : outcome B :=
  match m with
  | Done a => k a
  | OverRead => OverRead
  | OutOfFuel => OutOfFuel
  end.

Notation "'let*' x ':=' m 'in' k" := (obind m (fun x => k))
  (at level 10, x name, m at level 100, k at level 200).

(** ** Sample formats: the template argument of [processSamples<T>]

    Modelled from the spec: [int24_t] is declared outside the two source
    files; it is a packed 3-byte signed sample. *)

Inductive SampleType : Type := Int16 | Int24 | Int32.

Definition sizeof (T : SampleType) : Z :=
  match T with Int16 => 2 | Int24 => 3 | Int32 => 4 end.

Definition le_bytes (bs : list byte) : Z :=
  fold_right (fun b acc => Z.of_N (Byte.to_N b) + 256 * acc) 0 bs.

Definition as_signed (bits u : Z) : Z :=
  if u <? 2 ^ (bits - 1) then u else u - 2 ^ bits.

(** [((T* ) data)[k]] for a buffer of [length data] bytes, least significant
    byte first as on the boards the library targets; [None] when the element
    is not wholly inside the buffer. *)
Definition load (T : SampleType) (data : list byte) (k : Z) : option Z :=
  if (0 <=? k) && ((k + 1) * sizeof T <=? Z.of_nat (length data)) then
    Some (as_signed (8 * sizeof T)
            (le_bytes (take (Z.to_nat (sizeof T))
                         (drop (Z.to_nat (k * sizeof T)) data))))
  else None.

Definition load_value (T : SampleType) (data : list byte) (k : Z) : Z :=
  default 0 (load T data k).

(** Number of passes of [for (j = 0; j < samples; j += channels)] for
    [channels >= 1]: the frames that begin inside the whole samples. *)
Definition started_frames (samples channels : Z) : nat :=
  Z.to_nat ((samples + channels - 1) / channels).

(** The samples the loop of [processSamples] reads: element
    [i * channels + channel_used] for every started frame [i]. *)
Definition selected_samples (T : SampleType) (data : list byte)
    (channels channel_used : Z) : list Z :=
  map (fun i => load_value T data (Z.of_nat i * channels + channel_used))
      (seq 0 (started_frames (Z.of_nat (length data) / sizeof T) channels)).

(** Every read of the loop stays inside the whole samples of the buffer. *)
Definition reads_in_bounds (samples channels channel_used : Z) : Prop :=
  0 <= channel_used < channels /\
  (samples mod channels = 0 \/ channel_used < samples mod channels).

Fixpoint setvalue_events (pos : Z) (vs : list Z) : list Event :=
  match vs with
  | [] => []
  | v :: vs => DriverSetValue pos v :: setvalue_events (pos + 1) vs
  end.

Definition is_fft (e : Event) : bool :=
  match e with DriverFft _ _ => true | _ => false end.

Definition is_callback (e : Event) : bool :=
  match e with CallbackInvoked _ _ _ => true | _ => false end.

Definition is_driver_begin (e : Event) : bool :=
  match e with DriverBegin _ => true | _ => false end.

Definition count_events (p : Event -> bool) (tr : list Event) : nat :=
  length (List.filter p tr).

(** ** [class AudioFFTBase] *)

Module AudioFFTBase.

Import AudioFFTResult.

Section Pipeline.

Context {D : Type} `{FFTDriver.Driver D}.

(** [millis()]: the clock reading, as a function of what happened so far. *)
Variable millis : list Event -> Z.

Record t : Type := mk {
  p_driver : D;
  len : Z;
  current_pos : Z;
  cfg : AudioFFTConfig.t;
  timestamp : Z;
  trace : list Event
}.

Definition set_driver (d : D) (e : Event) (st : t) : t :=
  mk d (len st) (current_pos st) (cfg st) (timestamp st) (trace st ++ [e]).

Definition set_current_pos (p : Z) (st : t) : t :=
  mk (p_driver st) (len st) p (cfg st) (timestamp st) (trace st).

Definition set_cfg (c : AudioFFTConfig.t) (st : t) : t :=
  mk (p_driver st) (len st) (current_pos st) c (timestamp st) (trace st).

Definition set_timestamp (ts : Z) (st : t) : t :=
  mk (p_driver st) (len st) (current_pos st) (cfg st) ts (trace st).

Definition log (e : Event) (st : t) : t :=
  mk (p_driver st) (len st) (current_pos st) (cfg st) (timestamp st)
     (trace st ++ [e]).

(** [AudioFFTBase(uint16_t fft_len, FFTDriver* driver)] *)
Definition new (fft_len : Z) (driver : D) : t :=
  mk driver (fft_len mod 2 ^ 16) 0 AudioFFTConfig.default 0 [].

Definition defaultConfig : AudioFFTConfig.t := AudioFFTConfig.default.

(** [bool isPowerOfTwo(uint16_t x) { return (x & (x - 1)) == 0; }]:
    [x] is promoted to [int] before the subtraction. *)
Definition isPowerOfTwo (x : Z) : bool :=
  let x := x mod 2 ^ 16 in
  Z.land x (x - 1) =? 0.

Definition begin (info : AudioFFTConfig.t) (st : t) : bool * t :=
  let st := set_cfg info st in
  if negb (isPowerOfTwo (len st)) then (false, log LogError st)
  else
    let st := set_driver (FFTDriver.begin (len st) (p_driver st))
                         (DriverBegin (len st)) st in
    let st := set_current_pos 0 st in
    (FFTDriver.isValid (p_driver st), st).

(** [setAudioInfo(AudioBaseInfo info)] *)
Definition setAudioInfo (sample_rate channels bits_per_sample : Z) (st : t) : t :=
  let c := cfg st in
  let c := AudioFFTConfig.mk sample_rate channels bits_per_sample
             (AudioFFTConfig.callback c) (AudioFFTConfig.channel_used c) in
  let st := set_cfg c st in
  snd (begin (cfg st) st).

Definition end_ (st : t) : t :=
  set_driver (FFTDriver.end_ (p_driver st)) DriverEnd st.

Definition fft (st : t) : t :=
  let st := set_driver (FFTDriver.fft (p_driver st))
                       (DriverFft (current_pos st) (timestamp st)) st in
  let st := set_current_pos 0 st in
  let st := log (MillisRead (current_pos st)) st in
  let st := set_timestamp (millis (trace st)) st in
  match AudioFFTConfig.callback (cfg st) with
  | Some cb => log (CallbackInvoked cb (current_pos st) (timestamp st)) st
  | None => st
  end.

(** One pass through the body of the loop of [processSamples], after the
    sample has been read. *)
Definition push_sample (v : Z) (st : t) : t :=
  let st := set_driver (FFTDriver.setValue (current_pos st) v (p_driver st))
                       (DriverSetValue (current_pos st) v) st in
  let st := set_current_pos (current_pos st + 1) st in
  if len st <=? current_pos st then fft st else st.

Fixpoint processSamples_loop (fuel : nat) (T : SampleType) (data : list byte)
    (samples j : Z) (st : t) : outcome t :=
  match fuel with
  | O => OutOfFuel
  | S fuel' =>
      if j <? samples then
        match load T data (j + AudioFFTConfig.channel_used (cfg st)) with
        | None => OverRead
        | Some v =>
            let st := push_sample v st in
            processSamples_loop fuel' T data samples
              (j + AudioFFTConfig.channels (cfg st)) st
        end
      else Done st
  end.

Definition processSamples (fuel : nat) (T : SampleType) (data : list byte)
    (st : t) : outcome t :=
  let byteCount := Z.of_nat (length data) in
  let samples := byteCount / sizeof T in
  processSamples_loop fuel T data samples 0 st.

(** [size_t write(const uint8_t* data, size_t len)]; the buffer is the list
    [data] and [len] its length. *)
Definition write (fuel : nat) (data : list byte) (st : t) : outcome (Z * t) :=
  let byteCount := Z.of_nat (length data) in
  if FFTDriver.isValid (p_driver st) then
    match AudioFFTConfig.bits_per_sample (cfg st) with
    | 16 => let* st' := processSamples fuel Int16 data st in Done (byteCount, st')
    | 24 => let* st' := processSamples fuel Int24 data st in Done (byteCount, st')
    | 32 => let* st' := processSamples fuel Int32 data st in Done (byteCount, st')
    | _ => Done (byteCount, log LogError st)
    end
  else Done (0, st).

Definition availableForWrite (st : t) : Z :=
  Z.quot (AudioFFTConfig.bits_per_sample (cfg st)) 8 * len st.

Definition size (st : t) : Z := len st.

Definition resultTime (st : t) : Z := timestamp st.

(** [static_cast<float>(bin) * cfg.sample_rate / len] *)
Definition frequency (st : t) (bin : Z) : F32.float :=
  F32.div (F32.mul (F32.of_int bin)
                   (F32.of_int (AudioFFTConfig.sample_rate (cfg st))))
          (F32.of_int (len st)).

Definition magnitude (st : t) (idx : Z) : F32.float :=
  FFTDriver.magnitude idx (p_driver st).

(** The values of [j] in [for (int j = 1; j < len/2; j++)]. *)
Definition scanned_bins (st : t) : list Z :=
  map Z.of_nat (seq 1 (Z.to_nat (Z.quot (len st) 2) - 1)).

(** The loop of [result()] on the pair ([bin], [magnitude]) of [ret_value]. *)
Definition result_step (st : t) (ret : Z * F32.float) (j : Z) : Z * F32.float :=
  let m := magnitude st j in
  if F32.gt m (snd ret) then (j, m) else ret.

Definition result (st : t) : AudioFFTResult.t :=
  let ret := fold_left (result_step st) (scanned_bins st) (0, F32.zero) in
  AudioFFTResult.mk (fst ret) (snd ret) (frequency st (fst ret)).

(** [for (int i = N-2; i >= j; i--) result[i+1] = result[i];] *)
Definition shift_right (j : nat) (result : list AudioFFTResult.t)
    : list AudioFFTResult.t :=
  fold_left (fun r i => match r !! i with
                        | Some x => <[S i := x]> r
                        | None => r
                        end)
            (rev (seq j (length result - 1 - j))) result.

Definition InsertSorted_step (tmp : AudioFFTResult.t)
    (result : list AudioFFTResult.t) (j : nat) : list AudioFFTResult.t :=
  match result !! j with
  | Some rj =>
      if F32.gt (AudioFFTResult.magnitude tmp) (AudioFFTResult.magnitude rj)
      then <[j := tmp]> (shift_right j result)
      else result
  | None => result
  end.

(** [InsertSorted<N>]: the array is a list of length [N]; the function
    returns the array and the constant [false]. *)
Definition InsertSorted (result : list AudioFFTResult.t) (tmp : AudioFFTResult.t)
    : list AudioFFTResult.t * bool :=
  (fold_left (InsertSorted_step tmp) (seq 0 (length result)) result, false).

(** *** Notions used to state the properties *)

(** [push_sample] for each sample of a list, in order. *)
Definition feed (vs : list Z) (st : t) : t :=
  fold_left (fun s v => push_sample v s) vs st.


(** The events of one run of [fft()] entered with the given cursor and
    result time, on the trace [before]. *)
Definition fft_events (before : list Event) (cursor result_time : Z)
    (callback : option nat) : list Event :=
  let called := [DriverFft cursor result_time; MillisRead 0] in
  called ++ match callback with
            | Some cb => [CallbackInvoked cb 0 (millis (before ++ called))]
            | None => []
            end.

(** The fill cursor lies inside the window. *)
Definition cursor_ok (st : t) : Prop := 0 <= current_pos st < len st.

(** The state-changing entry points of the class. *)
Inductive Call : Type :=
| CallBegin (info : AudioFFTConfig.t)
| CallSetAudioInfo (sample_rate channels bits_per_sample : Z)
| CallEnd
| CallWrite (data : list byte).

Definition call (fuel : nat) (c : Call) (st : t) : outcome t :=
  match c with
  | CallBegin info => Done (snd (begin info st))
  | CallSetAudioInfo r c b => Done (setAudioInfo r c b st)
  | CallEnd => Done (end_ st)
  | CallWrite data => let* r := write fuel data st in Done (snd r)
  end.

Fixpoint calls (fuel : nat) (cs : list Call) (st : t) : outcome t :=
  match cs with
  | [] => Done st
  | c :: cs => let* st' := call fuel c st in calls fuel cs st'
  end.

(** Bin [b] is scanned, no scanned bin has a greater magnitude, and every
    scanned bin before [b] has a smaller one. *)
Definition is_dominant (st : t) (b : Z) : Prop :=
  1 <= b < Z.quot (len st) 2 /\
  (forall j, 1 <= j < Z.quot (len st) 2 ->
             F32.gt (magnitude st j) (magnitude st b) = false) /\
  (forall j, 1 <= j < b -> F32.gt (magnitude st b) (magnitude st j) = true).

(** Index of the first slot whose magnitude is below [m]; the length of the
    array when there is none. *)
Fixpoint first_below (m : F32.float) (result : list AudioFFTResult.t) : nat :=
  match result with
  | [] => 0%nat
  | r :: rs =>
      if F32.gt m (AudioFFTResult.magnitude r) then 0%nat
      else S (first_below m rs)
  end.

(** [resultArray<N>]: the caller's array comes in as [result].  The source
    writes [result[j].fft] and calls [insertSorted]; [AudioFFTResult] has no
    member [fft] and the class no [insertSorted], so the template cannot be
    instantiated as it stands.  This definition is therefore not the code as
    written but its evident reading, with the member [magnitude] and the
    function [InsertSorted]; it serves to run the top-N extraction on a
    concrete spectrum.  What holds of the code as it stands is stated on
    [InsertSorted]. *)
Definition resultArray (st : t) (result : list AudioFFTResult.t)
    : list AudioFFTResult.t :=
  let result :=
    map (AudioFFTResult.set_magnitude (F32.of_int (-1000000))) result in
  fold_left (fun r j =>
               let act := AudioFFTResult.mk j (magnitude st j) (frequency st j) in
               fst (InsertSorted r act))
            (scanned_bins st) result.

End Pipeline.

End AudioFFTBase.

(** ** A transform engine for examples: magnitudes come from a table *)

Module TableDriver.

Record t : Type := mk {
  ready : bool;
  input : list (Z * Z);
  table : list F32.float
}.

#[export] Instance driver : FFTDriver.Driver t := {|
  FFTDriver.begin := fun n d => mk true [] (table d);
  FFTDriver.end_ := fun d => mk false [] (table d);
  FFTDriver.setValue := fun pos v d => mk (ready d) (input d ++ [(pos, v)]) (table d);
  FFTDriver.fft := fun d => d;
  FFTDriver.magnitude := fun idx d => nth (Z.to_nat idx) (table d) F32.zero;
  FFTDriver.isValid := ready
|}.

Definition of_magnitudes (ms : list Z) : t :=
  mk false [] (map F32.of_int ms).

End TableDriver.

(** ** A transform engine for examples that records what it is given:
    the samples stored since the last transform, and the samples each
    transform ran on *)

Module RecordingDriver.

Record t : Type := mk {
  valid : bool;
  window : list (Z * Z);
  transformed : list (list (Z * Z))
}.

#[global] Instance driver : FFTDriver.Driver t := {|
  FFTDriver.begin := fun n d => mk true [] (transformed d);
  FFTDriver.end_ := fun d => mk false [] (transformed d);
  FFTDriver.setValue := fun pos v d =>
    mk (valid d) (window d ++ [(pos, v)]) (transformed d);
  FFTDriver.fft := fun d => mk (valid d) [] (transformed d ++ [window d]);
  FFTDriver.magnitude := fun idx d => F32.zero;
  FFTDriver.isValid := valid
|}.

Definition idle : t := mk false [] [].

End RecordingDriver.

(** ** A transform engine for examples that stops being valid as soon as
    a sample is stored *)

Module FragileDriver.

Record t : Type := mk {
  valid : bool;
  stored : nat
}.

#[global] Instance driver : FFTDriver.Driver t := {|
  FFTDriver.begin := fun n d => mk true 0;
  FFTDriver.end_ := fun d => mk false 0;
  FFTDriver.setValue := fun pos v d => mk false (S (stored d));
  FFTDriver.fft := fun d => d;
  FFTDriver.magnitude := fun idx d => F32.zero;
  FFTDriver.isValid := valid
|}.

Definition idle : t := mk false 0.

End FragileDriver.

(** Concrete pipelines used by the examples. *)

Module Examples.

Import TableDriver.

Definition clock : list Event -> Z := fun tr => 1000 + Z.of_nat (length tr).

Definition blank : AudioFFTResult.t := AudioFFTResult.mk 0 F32.zero F32.zero.

(** An 8-sample window over a spectrum whose magnitudes decrease with the
    bin number. *)
Definition decreasing8 : AudioFFTBase.t :=
  AudioFFTBase.new 8 (TableDriver.of_magnitudes [0; 3; 2; 1]).

(** An 8-sample window over a silent spectrum. *)
Definition silent8 : AudioFFTBase.t :=
  AudioFFTBase.new 8 (TableDriver.of_magnitudes [0; 0; 0; 0]).

(** An 8-sample window with a single peak at bin 2. *)
Definition peak8 : AudioFFTBase.t :=
  AudioFFTBase.new 8 (TableDriver.of_magnitudes [0; 0; 5; 0]).

Definition mono16 : AudioFFTConfig.t := AudioFFTConfig.mk 8000 1 16 None 0.
Definition stereo16 : AudioFFTConfig.t := AudioFFTConfig.mk 44100 2 16 (Some 7%nat) 0.
Definition mono8 : AudioFFTConfig.t := AudioFFTConfig.mk 8000 1 8 None 0.

(** A started 4-sample pipeline on 16-bit stereo data with a callback. *)
Definition started4 : AudioFFTBase.t :=
  snd (AudioFFTBase.begin stereo16 (AudioFFTBase.new 4 (TableDriver.of_magnitudes []))).



(** A pipeline whose window length 1000 is not a power of two. *)
Definition thousand : AudioFFTBase.t :=
  AudioFFTBase.new 1000 (TableDriver.of_magnitudes []).

(** A pipeline constructed with a window length of 0. *)
Definition empty_window : AudioFFTBase.t :=
  AudioFFTBase.new 0 (TableDriver.of_magnitudes []).

Definition bytes (bs : list Z) : list byte :=
  map (fun z => default x00 (Byte.of_N (Z.to_N z))) bs.

(** 16-bit stereo without a callback, left channel used. *)
Definition stereo16_quiet : AudioFFTConfig.t := AudioFFTConfig.mk 44100 2 16 None 0.

(** A started 8-sample pipeline on 16-bit stereo data. *)
Definition started8 : AudioFFTBase.t :=
  snd (AudioFFTBase.begin stereo16_quiet
         (AudioFFTBase.new 8 (TableDriver.of_magnitudes []))).

(** A started 8-sample pipeline configured for 8-bit samples. *)
Definition started8_depth8 : AudioFFTBase.t :=
  snd (AudioFFTBase.begin mono8 (AudioFFTBase.new 8 (TableDriver.of_magnitudes []))).

(** The 16-bit samples 1, 2: one mono frame each, or one stereo frame. *)
Definition two_samples : list byte := bytes [1; 0; 2; 0].

(** The 16-bit samples 1, 2, 3: a stereo frame and half of the next one. *)
Definition three_samples : list byte := bytes [1; 0; 2; 0; 3; 0].

(** Four 16-bit stereo frames: (1, 2), (3, 4), (5, 6), (7, 8). *)
Definition four_frames : list byte :=
  bytes [1; 0; 2; 0; 3; 0; 4; 0; 5; 0; 6; 0; 7; 0; 8; 0].



(** An 8-sample window at 8000 Hz with a single peak at bin 2. *)
Definition tone8 : AudioFFTBase.t := snd (AudioFFTBase.begin mono16 peak8).

(** A session on a 4-sample window. *)
Definition session : list AudioFFTBase.Call :=
  [AudioFFTBase.CallWrite two_samples;
   AudioFFTBase.CallBegin stereo16;
   AudioFFTBase.CallWrite three_samples;
   AudioFFTBase.CallWrite four_frames;
   AudioFFTBase.CallSetAudioInfo 8000 1 16;
   AudioFFTBase.CallWrite three_samples;
   AudioFFTBase.CallEnd].

End Examples.

(** ** Further notions on the pipeline *)

Module AudioFFTNotions.

Import AudioFFTBase.

(** A [setValue] call addresses a slot of a window of [n] samples. *)
Definition in_window (n : Z) (e : Event) : Prop :=
  match e with
  | DriverSetValue pos _ => 0 <= pos < n
  | _ => True
  end.

Definition is_setvalue (e : Event) : bool :=
  match e with DriverSetValue _ _ => true | _ => false end.

(** [round(x)] converted to [int]: the nearest integer, halves away from
    zero; [None] where the conversion is undefined (NaN, infinities). *)
Definition round_to_int (x : F32.float) : option Z :=
  match x with
  | S754_zero _ => Some 0
  | S754_finite s m e =>
      let r := if 0 <=? e then Zpos m * 2 ^ e
               else (Zpos m + 2 ^ (- e - 1)) / 2 ^ (- e) in
      Some (if s then - r else r)
  | _ => None
  end.

(** The cursor is inside the window and so is every [setValue] made so
    far. *)
Definition window_respected {D : Type} (st : @AudioFFTBase.t D) : Prop :=
  cursor_ok st /\ Forall (in_window (len st)) (trace st).

(** [InsertSorted(result, c)] for every candidate [c] of a list, in
    order. *)
Definition insert_each (cands result : list AudioFFTResult.t)
    : list AudioFFTResult.t :=
  fold_left (fun r c => fst (InsertSorted r c)) cands result.

(** The result a pass over the candidates keeps when it replaces the one
    it holds, [e] at first, by every candidate of greater magnitude. *)
Definition strongest (cands : list AudioFFTResult.t) (e : AudioFFTResult.t)
    : AudioFFTResult.t :=
  fold_left (fun best c =>
               if F32.gt (AudioFFTResult.magnitude c)
                         (AudioFFTResult.magnitude best)
               then c else best)
            cands e.

(** [int AudioFFTResult::frequncyAsInt() { return round(frequency); }] *)
Definition frequncyAsInt (r : AudioFFTResult.t) : option Z :=
  round_to_int (AudioFFTResult.frequency r).

End AudioFFTNotions.

(** ** [class AudioSourceURL] of [src/AudioTools/AudioSource.h]

    The URL stream the source drives is outside the two files: its calls
    are recorded in [stream].  The array of URLs is a C array, so it has at
    least one element and [max] is its length.  A read outside the array is
    the result [None].  The arguments of the log macros are not modelled. *)

Module AudioSourceURL.

Inductive StreamEvent : Type :=
| StreamBegin (url mime : string)
| StreamEnd
| StreamSetTimeout (millisec : Z).

Record t : Type := mk {
  urlArray : list string;
  pos : Z;
  max : Z;
  mime : string;
  started : bool;
  timeout_auto_next_value : Z;
  stream : list StreamEvent
}.

Definition set_pos (p : Z) (st : t) : t :=
  mk (urlArray st) p (max st) (mime st) (started st)
     (timeout_auto_next_value st) (stream st).

(** [urlArray[i]] *)
Definition url_at (st : t) (i : Z) : option string :=
  if i <? 0 then None else urlArray st !! Z.to_nat i.

(** [AudioSourceURL(urlStream, urlArray, mime, startPos)] *)
Definition new (urls : list string) (mime : string) (startPos : Z) : t :=
  mk urls (startPos - 1) (Z.of_nat (length urls)) mime false 20000 [].

Definition begin (st : t) : t := set_pos 0 st.

(** [if (started) actual_stream->end(); actual_stream->begin(url, mime);
    started = true;] *)
Definition open (url : string) (st : t) : t :=
  mk (urlArray st) (pos st) (max st) (mime st) true
     (timeout_auto_next_value st)
     (stream st ++ (if started st then [StreamEnd] else [])
                ++ [StreamBegin url (mime st)]).

(** [Stream* selectStream(int idx)] *)
Definition selectStream (idx : Z) (st : t) : option t :=
  let p := idx in
  let p := if p <? 0 then 0 else p in
  let p := if max st <=? p then max st - 1 else p in
  let st := set_pos p st in
  match url_at st p with
  | Some url => Some (open url st)
  | None => None
  end.

(** [Stream* nextStream(int offset)] *)
Definition nextStream (offset : Z) (st : t) : option t :=
  let p := pos st + offset in
  let p := if (p <? 0) || (max st <=? p) then 0 else p in
  selectStream p (set_pos p st).

(** [Stream* previousStream(int offset)] *)
Definition previousStream (offset : Z) (st : t) : option t :=
  let p := pos st - offset in
  let p := if (p <? 0) || (max st <=? p) then max st - 1 else p in
  selectStream p (set_pos p st).

(** [Stream* selectStream(const char* path)] *)
Definition selectStreamPath (path : string) (st : t) : t := open path st.

Definition index (st : t) : Z := pos st.

Definition toStr (st : t) : option string := url_at st (pos st).

Definition setTimeout (millisec : Z) (st : t) : t :=
  mk (urlArray st) (pos st) (max st) (mime st) (started st)
     (timeout_auto_next_value st) (stream st ++ [StreamSetTimeout millisec]).

Definition isAutoNext (st : t) : bool := true.

(** *** Notions used to state the properties *)

Inductive Call : Type :=
| CallBegin
| CallSelect (idx : Z)
| CallNext (offset : Z)
| CallPrevious (offset : Z)
| CallSelectPath (path : string)
| CallSetTimeout (millisec : Z).

Definition call (c : Call) (st : t) : option t :=
  match c with
  | CallBegin => Some (begin st)
  | CallSelect idx => selectStream idx st
  | CallNext offset => nextStream offset st
  | CallPrevious offset => previousStream offset st
  | CallSelectPath path => Some (selectStreamPath path st)
  | CallSetTimeout ms => Some (setTimeout ms st)
  end.

Fixpoint calls (cs : list Call) (st : t) : option t :=
  match cs with
  | [] => Some st
  | c :: cs => match call c st with
               | Some st' => calls cs st'
               | None => None
               end
  end.

(** The object is as its constructor leaves it: [max] is the length of the
    array, which is not empty. *)
Definition wf (st : t) : Prop :=
  max st = Z.of_nat (length (urlArray st)) /\ 1 <= max st.

Definition pos_ok (st : t) : Prop := 0 <= pos st < max st.

(** Replaying the calls made on the stream: [Some true] when they leave it
    open, [Some false] when they leave it closed, [None] when a stream is
    opened twice in a row or closed while it is not open. *)
Fixpoint replay (opened : bool) (evs : list StreamEvent) : option bool :=
  match evs with
  | [] => Some opened
  | StreamBegin _ _ :: evs => if opened then None else replay true evs
  | StreamEnd :: evs => if opened then replay false evs else None
  | StreamSetTimeout _ :: evs => replay opened evs
  end.

(** The URLs opened, in order. *)
Definition opened_urls (evs : list StreamEvent) : list string :=
  flat_map (fun e => match e with StreamBegin url _ => [url] | _ => [] end) evs.

End AudioSourceURL.

(** Further concrete objects used by the examples. *)

Module MoreExamples.

Import TableDriver Examples.

(** The pipeline with a window of length 0, after [begin]. *)
Definition started0 : AudioFFTBase.t :=
  snd (AudioFFTBase.begin mono16 empty_window).

(** 16-bit stereo with the right channel used, started on 8 samples. *)
Definition started8_right : AudioFFTBase.t :=
  snd (AudioFFTBase.begin (AudioFFTConfig.mk 44100 2 16 None 1)
         (AudioFFTBase.new 8 (TableDriver.of_magnitudes []))).

(** A started 8-sample pipeline whose channel count is 0. *)
Definition started8_no_channel : AudioFFTBase.t :=
  snd (AudioFFTBase.begin (AudioFFTConfig.mk 44100 0 16 None 0)
         (AudioFFTBase.new 8 (TableDriver.of_magnitudes []))).

(** A started 8-sample pipeline on 16-bit stereo data whose engine stops
    being valid when a sample is stored. *)
Definition started8_fragile : @AudioFFTBase.t FragileDriver.t :=
  snd (AudioFFTBase.begin stereo16_quiet (AudioFFTBase.new 8 FragileDriver.idle)).

(** A source over three URLs, built with start position 0. *)
Definition radio : AudioSourceURL.t :=
  AudioSourceURL.new ["http://a"%string; "http://b"%string; "http://c"%string]
    "audio/mp3"%string 0.

Definition radio_session : list AudioSourceURL.Call :=
  [AudioSourceURL.CallNext 1;
   AudioSourceURL.CallSetTimeout 500;
   AudioSourceURL.CallPrevious 5;
   AudioSourceURL.CallSelectPath "http://d"%string;
   AudioSourceURL.CallSelect 7;
   AudioSourceURL.CallBegin;
   AudioSourceURL.CallNext (-1)].

End MoreExamples.

(** * Properties *)

Section PipelineFacts.

Import AudioFFTBase.

Context {D : Type} `{FFTDriver.Driver D}.
Variable millis : list Event -> Z.

Implicit Types (data : list byte) (T : SampleType) (v : Z) (vs : list Z).

Local Abbreviation state := (@AudioFFTBase.t D).
Local Abbreviation fft := (AudioFFTBase.fft millis).
Local Abbreviation fft_events := (AudioFFTBase.fft_events millis).
Local Abbreviation push_sample := (AudioFFTBase.push_sample millis).
Local Abbreviation feed := (AudioFFTBase.feed millis).
Local Abbreviation processSamples_loop := (AudioFFTBase.processSamples_loop millis).
Local Abbreviation processSamples := (AudioFFTBase.processSamples millis).
Local Abbreviation write := (AudioFFTBase.write millis).
Local Abbreviation call := (AudioFFTBase.call millis).
Local Abbreviation calls := (AudioFFTBase.calls millis).

(** ** What [fft] and [push_sample] leave alone *)

Lemma fft_cfg (st : state) : cfg (fft st) = cfg st.
Proof. unfold AudioFFTBase.fft; simpl. destruct (AudioFFTConfig.callback _); reflexivity. Qed.

Lemma fft_len (st : state) : len (fft st) = len st.
Proof. unfold AudioFFTBase.fft; simpl. destruct (AudioFFTConfig.callback _); reflexivity. Qed.

Lemma fft_current_pos (st : state) : current_pos (fft st) = 0.
Proof. unfold AudioFFTBase.fft; simpl. destruct (AudioFFTConfig.callback _); reflexivity. Qed.



Lemma fft_trace (st : state) :
  trace (fft st) =
  trace st ++ fft_events (trace st) (current_pos st) (timestamp st)
                (AudioFFTConfig.callback (cfg st)).
Proof.
  unfold AudioFFTBase.fft, AudioFFTBase.fft_events; simpl.
  destruct (AudioFFTConfig.callback _); simpl; rewrite <- !app_assoc; reflexivity.
Qed.

Lemma push_sample_cfg v (st : state) : cfg (push_sample v st) = cfg st.
Proof.
  unfold AudioFFTBase.push_sample; simpl.
  destruct (_ <=? _); [rewrite fft_cfg|]; reflexivity.
Qed.

Lemma push_sample_len v (st : state) : len (push_sample v st) = len st.
Proof.
  unfold AudioFFTBase.push_sample; simpl.
  destruct (_ <=? _); [rewrite fft_len|]; reflexivity.
Qed.

Lemma push_sample_current_pos v (st : state) :
  current_pos (push_sample v st) =
  if len st <=? current_pos st + 1 then 0 else current_pos st + 1.
Proof.
  unfold AudioFFTBase.push_sample; simpl.
  destruct (_ <=? _); [rewrite fft_current_pos|]; reflexivity.
Qed.

Lemma feed_cons v vs (st : state) : feed (v :: vs) st = feed vs (push_sample v st).
Proof. reflexivity. Qed.

Lemma feed_app vs ws (st : state) : feed (vs ++ ws) st = feed ws (feed vs st).
Proof. unfold AudioFFTBase.feed. apply fold_left_app. Qed.

Lemma feed_cfg vs : forall st : state, cfg (feed vs st) = cfg st.
Proof.
  induction vs as [|v vs IH]; intros st; [reflexivity|].
  rewrite feed_cons, IH. apply push_sample_cfg.
Qed.


(** ** The cursor stays inside the window *)

Lemma push_sample_cursor_ok v st : cursor_ok st -> cursor_ok (push_sample v st).
Proof.
  unfold cursor_ok. rewrite push_sample_current_pos, push_sample_len.
  destruct (Z.leb_spec (len st) (current_pos st + 1)); lia.
Qed.

Lemma feed_cursor_ok vs : forall st, cursor_ok st -> cursor_ok (feed vs st).
Proof.
  induction vs as [|v vs IH]; intros st Hst; [exact Hst|].
  rewrite feed_cons. apply IH, push_sample_cursor_ok, Hst.
Qed.

(** Below the end of the window, feeding only stores samples. *)
Lemma feed_below vs : forall st : state,
  current_pos st + Z.of_nat (length vs) < len st ->
  current_pos (feed vs st) = current_pos st + Z.of_nat (length vs) /\
  trace (feed vs st) = trace st ++ setvalue_events (current_pos st) vs /\
  timestamp (feed vs st) = timestamp st.
Proof.
  induction vs as [|v vs IH]; intros st Hlt.
  - simpl. rewrite app_nil_r. split; [lia|]. split; reflexivity.
  - rewrite feed_cons. simpl length in *.
    assert (Hstep : current_pos (push_sample v st) = current_pos st + 1).
    { rewrite push_sample_current_pos.
      destruct (Z.leb_spec (len st) (current_pos st + 1)); lia. }
    destruct (IH (push_sample v st)) as (Hp & Ht & Hts).
    { rewrite push_sample_len, Hstep. lia. }
    rewrite Hp, Ht, Hts, Hstep.
    unfold AudioFFTBase.push_sample; simpl.
    destruct (Z.leb_spec (len st) (current_pos st + 1)); [lia|]. simpl.
    split; [lia|]. split; [|reflexivity].
    now rewrite <- app_assoc.
Qed.

(** ** Reading the caller's buffer *)

Lemma sizeof_pos T : 2 <= sizeof T <= 4.
Proof. destruct T; simpl; lia. Qed.

Lemma load_inside T data k :
  0 <= k -> (k + 1) * sizeof T <= Z.of_nat (length data) ->
  load T data k = Some (load_value T data k).
Proof.
  intros Hk Hin. unfold load_value, load.
  destruct (Z.leb_spec 0 k); [|lia].
  destruct (Z.leb_spec ((k + 1) * sizeof T) (Z.of_nat (length data))); [|lia].
  reflexivity.
Qed.

Lemma load_outside T data k :
  Z.of_nat (length data) < (k + 1) * sizeof T -> load T data k = None.
Proof.
  intros Hout. unfold load.
  destruct (Z.leb_spec ((k + 1) * sizeof T) (Z.of_nat (length data))); [lia|].
  now rewrite andb_false_r.
Qed.

Lemma whole_samples_fit T data :
  Z.of_nat (length data) / sizeof T * sizeof T <= Z.of_nat (length data).
Proof.
  pose proof (sizeof_pos T). rewrite Z.mul_comm. apply Z.mul_div_le. lia.
Qed.

Lemma started_frames_cover samples c :
  1 <= c -> 0 <= samples ->
  samples <= Z.of_nat (started_frames samples c) * c /\
  (forall i, (i < started_frames samples c)%nat -> Z.of_nat i * c < samples).
Proof.
  intros Hc Hs. unfold started_frames.
  assert (Hq : 0 <= (samples + c - 1) / c) by (apply Z.div_pos; lia).
  pose proof (Z.div_mod (samples + c - 1) c ltac:(lia)) as Hdm.
  pose proof (Z.mod_pos_bound (samples + c - 1) c ltac:(lia)) as Hm.
  split.
  - rewrite Z2Nat.id by lia. nia.
  - intros i Hi. apply Nat2Z.inj_lt in Hi. rewrite Z2Nat.id in Hi by lia. nia.
Qed.

Lemma started_frames_split samples c :
  1 <= c -> 0 <= samples ->
  Z.of_nat (started_frames samples c) =
  samples / c + (if samples mod c =? 0 then 0 else 1).
Proof.
  intros Hc Hs. unfold started_frames.
  pose proof (Z.div_mod samples c ltac:(lia)) as Hdm.
  pose proof (Z.mod_pos_bound samples c ltac:(lia)) as Hm.
  assert (Hq : 0 <= samples / c) by (apply Z.div_pos; lia).
  rewrite Z2Nat.id by (apply Z.div_pos; lia).
  destruct (Z.eqb_spec (samples mod c) 0) as [Hz|Hnz].
  - symmetry. apply Z.div_unique with (r := c - 1); [lia|nia].
  - symmetry. apply Z.div_unique with (r := samples mod c - 1); [lia|nia].
Qed.

Lemma reads_in_bounds_inside T data c cu i :
  1 <= c ->
  reads_in_bounds (Z.of_nat (length data) / sizeof T) c cu ->
  (i < started_frames (Z.of_nat (length data) / sizeof T) c)%nat ->
  0 <= Z.of_nat i * c + cu /\
  (Z.of_nat i * c + cu + 1) * sizeof T <= Z.of_nat (length data).
Proof.
  intros Hc [Hcu Hrem] Hi.
  pose proof (sizeof_pos T) as Hw.
  pose proof (whole_samples_fit T data) as Hfit.
  set (samples := Z.of_nat (length data) / sizeof T) in *.
  assert (Hs : 0 <= samples) by (apply Z.div_pos; lia).
  pose proof (started_frames_split samples c Hc Hs) as Hn.
  pose proof (Z.div_mod samples c ltac:(lia)) as Hdm.
  pose proof (Z.mod_pos_bound samples c ltac:(lia)) as Hm.
  apply Nat2Z.inj_lt in Hi. rewrite Hn in Hi.
  split; [nia|].
  assert (Hidx : Z.of_nat i * c + cu + 1 <= samples).
  { destruct (Z.eqb_spec (samples mod c) 0); [nia|].
    destruct Hrem as [Hrem|Hrem]; [lia|]. nia. }
  nia.
Qed.

(** ** The loop of [processSamples] pushes the selected samples *)

Lemma processSamples_loop_feed T data samples c cu :
  1 <= c ->
  forall (n fuel : nat) (j : Z) (st : state),
    AudioFFTConfig.channels (cfg st) = c ->
    AudioFFTConfig.channel_used (cfg st) = cu ->
    (n < fuel)%nat ->
    samples <= j + Z.of_nat n * c ->
    (forall i, (i < n)%nat -> j + Z.of_nat i * c < samples) ->
    (forall i, (i < n)%nat ->
       load T data (j + Z.of_nat i * c + cu) =
       Some (load_value T data (j + Z.of_nat i * c + cu))) ->
    processSamples_loop fuel T data samples j st =
    Done (feed (map (fun i => load_value T data (j + Z.of_nat i * c + cu))
                    (seq 0 n)) st).
Proof.
  intros Hc n. induction n as [|n IH]; intros fuel j st Hch Hcu Hfuel Hend Hin Hload.
  - destruct fuel as [|fuel]; [lia|]. simpl.
    destruct (Z.ltb_spec j samples); [lia|]. reflexivity.
  - destruct fuel as [|fuel]; [lia|]. cbn [AudioFFTBase.processSamples_loop].
    pose proof (Hin 0%nat ltac:(lia)) as H0. simpl in H0.
    destruct (Z.ltb_spec j samples); [|lia].
    pose proof (Hload 0%nat ltac:(lia)) as Hl0. simpl in Hl0.
    rewrite Z.add_0_r in Hl0. rewrite Hcu, Hl0.
    rewrite push_sample_cfg, Hch.
    rewrite (IH fuel (j + c) (push_sample (load_value T data (j + cu)) st)).
    + f_equal. cbn [seq map]. rewrite feed_cons. simpl Z.of_nat.
      rewrite Z.mul_0_l, Z.add_0_r. f_equal.
      rewrite <- seq_shift, map_map. apply map_ext. intros i. f_equal. lia.
    + now rewrite push_sample_cfg.
    + now rewrite push_sample_cfg.
    + lia.
    + lia.
    + intros i Hi. specialize (Hin (S i) ltac:(lia)). lia.
    + intros i Hi. specialize (Hload (S i) ltac:(lia)).
      replace (j + c + Z.of_nat i * c + cu) with (j + Z.of_nat (S i) * c + cu) by lia.
      exact Hload.
Qed.

Theorem processSamples_feed T data (st : state) (fuel : nat) :
  let c := AudioFFTConfig.channels (cfg st) in
  let cu := AudioFFTConfig.channel_used (cfg st) in
  let samples := Z.of_nat (length data) / sizeof T in
  1 <= c ->
  reads_in_bounds samples c cu ->
  (started_frames samples c < fuel)%nat ->
  processSamples fuel T data st = Done (feed (selected_samples T data c cu) st).
Proof.
  intros c cu samples Hc Hin Hfuel.
  pose proof (sizeof_pos T) as Hw.
  assert (Hs : 0 <= samples) by (apply Z.div_pos; lia).
  destruct (started_frames_cover samples c Hc Hs) as [Hcover Hlt].
  unfold AudioFFTBase.processSamples. fold samples.
  apply (processSamples_loop_feed T data samples c cu Hc
           (started_frames samples c) fuel 0 st eq_refl eq_refl Hfuel).
  - lia.
  - intros i Hi. specialize (Hlt i Hi). lia.
  - intros i Hi.
    destruct (reads_in_bounds_inside T data c cu i Hc Hin Hi) as [Hlo Hhi].
    apply load_inside; [lia|].
    replace (0 + Z.of_nat i * c + cu + 1)
      with (Z.of_nat i * c + cu + 1) by lia.
    exact Hhi.
Qed.

(** A trailing partial frame that does not hold the sample of
    [channel_used] makes the loop read past the end of the buffer. *)
Lemma processSamples_loop_over_read T data samples c cu :
  1 <= c ->
  forall (n fuel : nat) (j : Z) (st : state),
    AudioFFTConfig.channels (cfg st) = c ->
    AudioFFTConfig.channel_used (cfg st) = cu ->
    (n < fuel)%nat ->
    (forall i, (i <= n)%nat -> j + Z.of_nat i * c < samples) ->
    (forall i, (i < n)%nat ->
       load T data (j + Z.of_nat i * c + cu) =
       Some (load_value T data (j + Z.of_nat i * c + cu))) ->
    load T data (j + Z.of_nat n * c + cu) = None ->
    processSamples_loop fuel T data samples j st = OverRead.
Proof.
  intros Hc n. induction n as [|n IH]; intros fuel j st Hch Hcu Hfuel Hin Hload Hlast;
    (destruct fuel as [|fuel]; [lia|]); cbn [AudioFFTBase.processSamples_loop];
    pose proof (Hin 0%nat ltac:(lia)) as H0; simpl in H0;
    (destruct (Z.ltb_spec j samples); [|lia]); rewrite Hcu.
  - simpl in Hlast. rewrite Z.add_0_r in Hlast. now rewrite Hlast.
  - pose proof (Hload 0%nat ltac:(lia)) as Hl0. simpl in Hl0.
    rewrite Z.add_0_r in Hl0. rewrite Hl0, push_sample_cfg, Hch.
    apply (IH fuel (j + c)); rewrite ?push_sample_cfg; try assumption; try lia.
    + intros i Hi. specialize (Hin (S i) ltac:(lia)). lia.
    + intros i Hi. specialize (Hload (S i) ltac:(lia)).
      replace (j + c + Z.of_nat i * c + cu) with (j + Z.of_nat (S i) * c + cu) by lia.
      exact Hload.
    + replace (j + c + Z.of_nat n * c + cu) with (j + Z.of_nat (S n) * c + cu) by lia.
      exact Hlast.
Qed.

Lemma processSamples_over_read T data (st : state) (fuel : nat) :
  let c := AudioFFTConfig.channels (cfg st) in
  let cu := AudioFFTConfig.channel_used (cfg st) in
  let samples := Z.of_nat (length data) / sizeof T in
  1 <= c ->
  0 < samples mod c <= cu ->
  cu < c ->
  (started_frames samples c < fuel)%nat ->
  processSamples fuel T data st = OverRead.
Proof.
  intros c cu samples Hc Hrem Hcu Hfuel.
  pose proof (sizeof_pos T) as Hw.
  assert (Hs : 0 <= samples) by (apply Z.div_pos; lia).
  pose proof (started_frames_split samples c Hc Hs) as Hn.
  destruct (Z.eqb_spec (samples mod c) 0) as [|_]; [lia|].
  pose proof (Z.div_mod samples c ltac:(lia)) as Hdm.
  assert (Hq : 0 <= samples / c) by (apply Z.div_pos; lia).
  pose proof (whole_samples_fit T data) as Hfit. fold samples in Hfit.
  pose proof (Z.mul_succ_div_gt (Z.of_nat (length data)) (sizeof T) ltac:(lia)) as Hgt.
  fold samples in Hgt.
  unfold AudioFFTBase.processSamples. fold samples.
  apply (processSamples_loop_over_read T data samples c cu Hc
           (Z.to_nat (samples / c)) fuel 0 st eq_refl eq_refl).
  - lia.
  - intros i Hi. nia.
  - intros i Hi. apply load_inside; [nia|].
    assert (Hidx : 0 + Z.of_nat i * c + cu + 1 <= samples) by nia.
    apply Z.le_trans with (samples * sizeof T); [|exact Hfit].
    apply Z.mul_le_mono_nonneg_r; lia.
  - apply load_outside. rewrite Z2Nat.id by lia.
    assert (Hidx : samples + 1 <= 0 + samples / c * c + cu + 1) by nia.
    apply Z.lt_le_trans with (sizeof T * Z.succ samples); [exact Hgt|].
    rewrite Z.mul_comm. apply Z.mul_le_mono_nonneg_r; lia.
Qed.

(** With [channels = 0] the loop never advances: no amount of fuel lets it
    return once there is a sample to read. *)
Lemma processSamples_loop_stuck T data samples cu :
  0 < samples ->
  load T data cu = Some (load_value T data cu) ->
  forall (fuel : nat) (st : state),
    AudioFFTConfig.channels (cfg st) = 0 ->
    AudioFFTConfig.channel_used (cfg st) = cu ->
    processSamples_loop fuel T data samples 0 st = OutOfFuel.
Proof.
  intros Hs Hl fuel. induction fuel as [|fuel IH]; intros st Hc Hcu; [reflexivity|].
  cbn [AudioFFTBase.processSamples_loop].
  destruct (Z.ltb_spec 0 samples); [|lia].
  rewrite Hcu. change (0 + cu) with cu. rewrite Hl, push_sample_cfg, Hc.
  change (0 + 0) with 0.
  apply IH; now rewrite push_sample_cfg.
Qed.

(** Whatever the configuration, a loop that returns keeps the cursor inside
    the window and the window length and configuration as they were. *)
Lemma processSamples_loop_cursor_ok T data samples :
  forall (fuel : nat) (j : Z) (st st' : state),
    processSamples_loop fuel T data samples j st = Done st' ->
    cursor_ok st -> cursor_ok st' /\ len st' = len st /\ cfg st' = cfg st.
Proof.
  induction fuel as [|fuel IH]; intros j st st' Hrun Hok; [discriminate|].
  cbn [AudioFFTBase.processSamples_loop] in Hrun.
  destruct (j <? samples).
  - destruct (load T data _) as [v|]; [|discriminate].
    apply IH in Hrun; [|now apply push_sample_cursor_ok].
    rewrite push_sample_len, push_sample_cfg in Hrun. exact Hrun.
  - injection Hrun as <-. auto.
Qed.

(** ** [write] *)

Lemma bits_dispatch {A : Type} (b : Z) (x16 x24 x32 d : A) :
  match b with 16 => x16 | 24 => x24 | 32 => x32 | _ => d end =
  if b =? 16 then x16 else if b =? 24 then x24 else if b =? 32 then x32 else d.
Proof.
  destruct b as [|p|p]; try reflexivity.
  do 6 (try destruct p as [p|p|]; try reflexivity).
Qed.

Lemma write_invalid data (st : state) fuel :
  FFTDriver.isValid (p_driver st) = false -> write fuel data st = Done (0, st).
Proof. intros Hv. unfold AudioFFTBase.write. now rewrite Hv. Qed.

Lemma write_unsupported data (st : state) fuel :
  FFTDriver.isValid (p_driver st) = true ->
  (forall T, AudioFFTConfig.bits_per_sample (cfg st) <> 8 * sizeof T) ->
  write fuel data st = Done (Z.of_nat (length data), log LogError st).
Proof.
  intros Hv Hb. unfold AudioFFTBase.write. rewrite Hv, bits_dispatch.
  pose proof (Hb Int16). pose proof (Hb Int24). pose proof (Hb Int32).
  simpl in *.
  destruct (Z.eqb_spec (AudioFFTConfig.bits_per_sample (cfg st)) 16); [lia|].
  destruct (Z.eqb_spec (AudioFFTConfig.bits_per_sample (cfg st)) 24); [lia|].
  destruct (Z.eqb_spec (AudioFFTConfig.bits_per_sample (cfg st)) 32); [lia|].
  reflexivity.
Qed.

Lemma write_supported T data (st : state) fuel :
  FFTDriver.isValid (p_driver st) = true ->
  AudioFFTConfig.bits_per_sample (cfg st) = 8 * sizeof T ->
  write fuel data st =
  let* st' := processSamples fuel T data st in Done (Z.of_nat (length data), st').
Proof.
  intros Hv Hb. unfold AudioFFTBase.write. rewrite Hv, Hb.
  destruct T; reflexivity.
Qed.

Lemma write_feed T data (st : state) fuel :
  let c := AudioFFTConfig.channels (cfg st) in
  let cu := AudioFFTConfig.channel_used (cfg st) in
  let samples := Z.of_nat (length data) / sizeof T in
  FFTDriver.isValid (p_driver st) = true ->
  AudioFFTConfig.bits_per_sample (cfg st) = 8 * sizeof T ->
  1 <= c ->
  reads_in_bounds samples c cu ->
  (started_frames samples c < fuel)%nat ->
  write fuel data st =
  Done (Z.of_nat (length data), feed (selected_samples T data c cu) st).
Proof.
  intros c cu samples Hv Hb Hc Hin Hfuel.
  rewrite (write_supported T) by assumption.
  now rewrite processSamples_feed.
Qed.

(** A call that returns keeps the cursor inside the window. *)
Lemma write_cursor_ok data (st : state) fuel r :
  write fuel data st = Done r ->
  cursor_ok st -> cursor_ok (snd r) /\ len (snd r) = len st.
Proof.
  unfold AudioFFTBase.write. rewrite bits_dispatch. intros Hrun Hok.
  assert (Hps : forall T,
    (let* st' := processSamples fuel T data st
     in Done (Z.of_nat (length data), st')) = Done r ->
    cursor_ok (snd r) /\ len (snd r) = len st).
  { intros T HT. unfold AudioFFTBase.processSamples in HT.
    destruct (processSamples_loop _ _ _ _ _ _) as [st'| |] eqn:Hloop;
      try discriminate.
    simpl in HT. injection HT as <-. simpl.
    apply processSamples_loop_cursor_ok in Hloop; tauto. }
  destruct (FFTDriver.isValid _).
  - destruct (_ =? 16); [now apply (Hps Int16)|].
    destruct (_ =? 24); [now apply (Hps Int24)|].
    destruct (_ =? 32); [now apply (Hps Int32)|].
    injection Hrun as <-. auto.
  - injection Hrun as <-. auto.
Qed.

(** C2 (as amended).  [write] returns 0 and changes nothing when the engine
    is not valid.  When the engine is valid it returns the full byte count:
    with a bit depth other than 16, 24 or 32 it logs an error and processes
    no sample, yet still reports every byte as consumed; with a supported
    bit depth, at least one channel and reads that stay inside the buffer it
    terminates after pushing the selected samples. *)
Theorem write_return_value data (st : state) :
  (FFTDriver.isValid (p_driver st) = false ->
   forall fuel, write fuel data st = Done (0, st)) /\
  (FFTDriver.isValid (p_driver st) = true ->
   (forall T, AudioFFTConfig.bits_per_sample (cfg st) <> 8 * sizeof T) ->
   forall fuel,
     write fuel data st = Done (Z.of_nat (length data), log LogError st)) /\
  (FFTDriver.isValid (p_driver st) = true ->
   forall T,
     AudioFFTConfig.bits_per_sample (cfg st) = 8 * sizeof T ->
     1 <= AudioFFTConfig.channels (cfg st) ->
     reads_in_bounds (Z.of_nat (length data) / sizeof T)
       (AudioFFTConfig.channels (cfg st))
       (AudioFFTConfig.channel_used (cfg st)) ->
     forall fuel,
       (started_frames (Z.of_nat (length data) / sizeof T)
          (AudioFFTConfig.channels (cfg st)) < fuel)%nat ->
       write fuel data st =
       Done (Z.of_nat (length data),
             feed (selected_samples T data (AudioFFTConfig.channels (cfg st))
                     (AudioFFTConfig.channel_used (cfg st))) st)).
Proof.
  split; [|split].
  - intros Hv fuel. now apply write_invalid.
  - intros Hv Hb fuel. now apply write_unsupported.
  - intros Hv T Hb Hc Hin fuel Hfuel. now apply write_feed.
Qed.

(** ** Partial trailing frames *)

Lemma load_value_inside T data k :
  0 <= k -> (k + 1) * sizeof T <= Z.of_nat (length data) ->
  load_value T data k =
  as_signed (8 * sizeof T)
    (le_bytes (take (Z.to_nat (sizeof T)) (drop (Z.to_nat (k * sizeof T)) data))).
Proof.
  intros Hk Hin. unfold load_value, load.
  destruct (Z.leb_spec 0 k); [|lia].
  destruct (Z.leb_spec ((k + 1) * sizeof T) (Z.of_nat (length data))); [|lia].
  reflexivity.
Qed.

Lemma load_value_take T data (n : nat) k :
  0 <= k -> (k + 1) * sizeof T <= Z.of_nat n -> (n <= length data)%nat ->
  load_value T (take n data) k = load_value T data k.
Proof.
  intros Hk Hn Hlen. pose proof (sizeof_pos T) as Hw.
  rewrite !load_value_inside; try lia.
  2: { rewrite length_take. lia. }
  rewrite skipn_firstn_comm, firstn_firstn, Nat.min_l; [reflexivity|].
  assert (0 <= k * sizeof T) by nia. lia.
Qed.

Lemma selected_samples_length T data c cu :
  1 <= c ->
  Z.of_nat (length (selected_samples T data c cu)) =
  let samples := Z.of_nat (length data) / sizeof T in
  samples / c + (if samples mod c =? 0 then 0 else 1).
Proof.
  intros Hc. unfold selected_samples. rewrite length_map, length_seq.
  apply started_frames_split; [exact Hc|].
  pose proof (sizeof_pos T). apply Z.div_pos; lia.
Qed.

Lemma whole_samples_take T data :
  let n := Z.to_nat (Z.of_nat (length data) / sizeof T * sizeof T) in
  (n <= length data)%nat /\
  Z.of_nat (length (take n data)) / sizeof T = Z.of_nat (length data) / sizeof T.
Proof.
  intros n. pose proof (sizeof_pos T) as Hw.
  pose proof (whole_samples_fit T data) as Hfit.
  assert (Hs : 0 <= Z.of_nat (length data) / sizeof T) by (apply Z.div_pos; lia).
  assert (Hn : (n <= length data)%nat) by (unfold n; nia).
  split; [exact Hn|].
  rewrite length_take, Nat.min_l by exact Hn.
  unfold n. rewrite Z2Nat.id by nia. apply Z.div_mul. lia.
Qed.

(** C3 (as amended).  When the byte count is not a multiple of the frame
    size, [write] pushes one sample for every frame that begins inside the
    whole samples of the buffer: the complete frames, and also the trailing
    partial frame when it still holds a whole sample.  The bytes after the
    last whole sample are ignored, and the state after the call is that of
    pushing the selected samples: nothing is kept for the next call. *)
Theorem write_partial_frame T data (st : state) (fuel : nat) :
  let c := AudioFFTConfig.channels (cfg st) in
  let cu := AudioFFTConfig.channel_used (cfg st) in
  let samples := Z.of_nat (length data) / sizeof T in
  FFTDriver.isValid (p_driver st) = true ->
  AudioFFTConfig.bits_per_sample (cfg st) = 8 * sizeof T ->
  1 <= c ->
  Z.of_nat (length data) mod (c * sizeof T) <> 0 ->
  reads_in_bounds samples c cu ->
  (started_frames samples c < fuel)%nat ->
  write fuel data st =
    Done (Z.of_nat (length data), feed (selected_samples T data c cu) st) /\
  Z.of_nat (length (selected_samples T data c cu)) =
    samples / c + (if samples mod c =? 0 then 0 else 1) /\
  selected_samples T data c cu =
    selected_samples T (take (Z.to_nat (samples * sizeof T)) data) c cu.
Proof.
  intros c cu samples Hv Hb Hc Hpart Hin Hfuel.
  split; [now apply write_feed|].
  split; [now apply selected_samples_length|].
  destruct (whole_samples_take T data) as [Hn Hsame].
  subst samples. unfold selected_samples. rewrite Hsame.
  apply map_ext_in. intros i Hi. apply in_seq in Hi.
  destruct (reads_in_bounds_inside T data c cu i Hc Hin) as [Hlo Hhi]; [lia|].
  symmetry. apply load_value_take; [exact Hlo| |exact Hn].
  pose proof (sizeof_pos T) as Hw.
  pose proof (whole_samples_fit T data) as Hfit.
  assert (Hs : 0 <= Z.of_nat (length data) / sizeof T) by (apply Z.div_pos; lia).
  rewrite Z2Nat.id by nia.
  pose proof (Z.mul_succ_div_gt (Z.of_nat (length data)) (sizeof T) ltac:(lia)) as Hgt.
  set (q := Z.of_nat (length data) / sizeof T) in *.
  set (idx := Z.of_nat i * c + cu) in *.
  assert (Hidx : idx + 1 <= q).
  { apply Z.lt_succ_r. apply (Z.mul_lt_mono_pos_r (sizeof T)); lia. }
  apply Z.mul_le_mono_nonneg_r; lia.
Qed.

(** ** A full window *)


Lemma count_events_app p tr1 tr2 :
  count_events p (tr1 ++ tr2) = (count_events p tr1 + count_events p tr2)%nat.
Proof. unfold count_events. now rewrite List.filter_app, length_app. Qed.





Lemma begin_success info (st st1 : state) :
  begin info st = (true, st1) ->
  FFTDriver.isValid (p_driver st1) = true /\ current_pos st1 = 0 /\
  cfg st1 = info /\ len st1 = len st.
Proof.
  unfold AudioFFTBase.begin. simpl.
  destruct (isPowerOfTwo (len st)); simpl; intros Hb; [|discriminate].
  injection Hb as Hv <-. simpl. auto.
Qed.


(** ** [begin] *)

Lemma begin_rejected info (st : state) :
  isPowerOfTwo (len st) = false ->
  begin info st = (false, log LogError (set_cfg info st)).
Proof.
  intros Hp. unfold AudioFFTBase.begin. simpl. rewrite Hp. reflexivity.
Qed.

(** C7 (as amended).  When the window length fails the power-of-two test,
    [begin] returns [false], logs one error and does not call the engine:
    the engine, the window length, the cursor and the time stamp are as
    before, but the configuration passed to the call has been stored. *)
Theorem begin_failure_state info (st : state) :
  isPowerOfTwo (len st) = false ->
  begin info st =
  (false, AudioFFTBase.mk (p_driver st) (len st) (current_pos st) info
            (timestamp st) (trace st ++ [LogError])).
Proof. intros Hp. now rewrite begin_rejected. Qed.

Lemma begin_accepted info (st : state) :
  isPowerOfTwo (len st) = true ->
  begin info st =
  (FFTDriver.isValid (FFTDriver.begin (len st) (p_driver st)),
   AudioFFTBase.mk (FFTDriver.begin (len st) (p_driver st)) (len st) 0 info
     (timestamp st) (trace st ++ [DriverBegin (len st)])).
Proof.
  intros Hp. unfold AudioFFTBase.begin. simpl. rewrite Hp. reflexivity.
Qed.

(** C10.  The power-of-two test accepts 0, so [begin] on a window of length 0
    logs no error, starts the engine with length 0 and returns what the
    engine reports. *)
Theorem begin_accepts_zero_length info (d : D) :
  isPowerOfTwo 0 = true /\
  begin info (AudioFFTBase.new 0 d) =
  (FFTDriver.isValid (FFTDriver.begin 0 d),
   AudioFFTBase.mk (FFTDriver.begin 0 d) 0 0 info 0 [DriverBegin 0]).
Proof. split; reflexivity. Qed.

(** Every later [write] on an engine that was never started consumes
    nothing. *)
Lemma writes_on_invalid_engine (st : state) :
  FFTDriver.isValid (p_driver st) = false ->
  forall (datas : list (list byte)) (fuel : nat),
    calls fuel (map CallWrite datas) st = Done st /\
    Forall (fun data => write fuel data st = Done (0, st)) datas.
Proof.
  intros Hv datas fuel. induction datas as [|data datas [IHc IHw]].
  - split; [reflexivity|constructor].
  - split.
    + simpl. rewrite write_invalid by exact Hv. simpl. exact IHc.
    + constructor; [now apply write_invalid|exact IHw].
Qed.

(** On a length the test rejects, [begin] fails, the engine is not started
    and, when it was not valid before, no later [write] consumes a byte. *)
Lemma begin_rejected_then_write info (st : state) :
  isPowerOfTwo (len st) = false ->
  FFTDriver.isValid (p_driver st) = false ->
  fst (begin info st) = false /\
  p_driver (snd (begin info st)) = p_driver st /\
  count_events is_driver_begin (trace (snd (begin info st))) =
    count_events is_driver_begin (trace st) /\
  forall (datas : list (list byte)) (fuel : nat),
    Forall (fun data =>
              write fuel data (snd (begin info st)) =
              Done (0, snd (begin info st))) datas.
Proof.
  intros Hp Hv. rewrite begin_rejected by exact Hp.
  unfold log, set_cfg. cbn [fst snd p_driver trace].
  split; [reflexivity|]. split; [reflexivity|]. split.
  - rewrite count_events_app.
    change (count_events is_driver_begin [LogError]) with 0%nat. lia.
  - intros datas fuel. now apply writes_on_invalid_engine.
Qed.

(** ** The cursor invariant *)

Lemma begin_cursor_ok info (st : state) :
  cursor_ok st ->
  cursor_ok (snd (begin info st)) /\ len (snd (begin info st)) = len st /\
  (current_pos (snd (begin info st)) = current_pos st \/
   current_pos (snd (begin info st)) = 0).
Proof.
  unfold cursor_ok, AudioFFTBase.begin. simpl.
  destruct (isPowerOfTwo (len st)); simpl; intros Hok.
  - split; [lia|]. auto.
  - split; [lia|]. auto.
Qed.

Lemma call_cursor_ok c fuel (st st' : state) :
  call fuel c st = Done st' ->
  cursor_ok st -> cursor_ok st' /\ len st' = len st.
Proof.
  destruct c as [info|r ch b| |data]; simpl; intros Hrun Hok.
  - injection Hrun as <-. pose proof (begin_cursor_ok info st Hok). tauto.
  - injection Hrun as <-. unfold AudioFFTBase.setAudioInfo.
    cbn [cfg set_cfg].
    match goal with |- context [begin ?i ?s] =>
      pose proof (begin_cursor_ok i s Hok) as Hb end.
    simpl in Hb |- *. tauto.
  - injection Hrun as <-. auto.
  - destruct (write fuel data st) as [r| |] eqn:Hw; try discriminate.
    simpl in Hrun. injection Hrun as <-. now apply (write_cursor_ok data st fuel).
Qed.

Lemma calls_cursor_ok cs fuel : forall st st' : state,
  calls fuel cs st = Done st' ->
  cursor_ok st -> cursor_ok st' /\ len st' = len st.
Proof.
  induction cs as [|c cs IH]; intros st st' Hrun Hok.
  - injection Hrun as <-. auto.
  - simpl in Hrun.
    destruct (call fuel c st) as [st1| |] eqn:Hc; try discriminate.
    simpl in Hrun. destruct (call_cursor_ok _ _ _ _ Hc Hok) as [Hok1 Hl1].
    destruct (IH _ _ Hrun Hok1) as [Hok' Hl']. split; [exact Hok'|congruence].
Qed.

(** C9 (as amended).  The cursor is 0 after a successful [begin] and right
    after a transform.  It is changed by the buffering loop, which advances
    it by one for every stored sample and has [fft()] reset it to 0 when it
    reaches the window length, and also by [begin] and [setAudioInfo], which
    reset it to 0 whenever the length passes the power-of-two test (whatever
    the engine then reports) and leave it as it is when the length is
    rejected; [end] leaves it as it is.  On a window of length
    1 <= len < 65536 it lies in [0, len) after any sequence of calls that
    return, in particular after every [write]. *)
Theorem cursor_invariant :
  (forall info (st st1 : state), begin info st = (true, st1) -> current_pos st1 = 0) /\
  (forall st : state, current_pos (fft st) = 0) /\
  (forall v (st : state),
     current_pos (push_sample v st) =
       if len st <=? current_pos st + 1 then 0 else current_pos st + 1) /\
  (forall info (st : state),
     current_pos (snd (begin info st)) =
       if isPowerOfTwo (len st) then 0 else current_pos st) /\
  (forall r c b (st : state),
     current_pos (setAudioInfo r c b st) =
       if isPowerOfTwo (len st) then 0 else current_pos st) /\
  (forall st : state, current_pos (end_ st) = current_pos st) /\
  (forall fft_len (d : D) cs fuel (st' : state),
     1 <= fft_len < 2 ^ 16 ->
     calls fuel cs (AudioFFTBase.new fft_len d) = Done st' ->
     len st' = fft_len /\ 0 <= current_pos st' < fft_len).
Proof.
  split; [|split; [|split; [|split; [|split; [|split]]]]].
  - intros info st st1 Hb. now destruct (begin_success _ _ _ Hb) as (_ & Hp & _).
  - apply fft_current_pos.
  - apply push_sample_current_pos.
  - intros info st. unfold AudioFFTBase.begin. simpl.
    destruct (isPowerOfTwo (len st)); reflexivity.
  - intros r c b st. unfold AudioFFTBase.setAudioInfo, AudioFFTBase.begin. simpl.
    destruct (isPowerOfTwo (len st)); reflexivity.
  - reflexivity.
  - intros fft_len d cs fuel st' Hlen Hrun.
    assert (Hnew : cursor_ok (AudioFFTBase.new fft_len d)).
    { unfold cursor_ok. simpl. rewrite Z.mod_small by lia. lia. }
    destruct (calls_cursor_ok _ _ _ _ Hrun Hnew) as [Hok Hl].
    simpl in Hl. rewrite Z.mod_small in Hl by lia.
    unfold cursor_ok in Hok. rewrite Hl in Hok. auto.
Qed.

End PipelineFacts.

(** ** Order of binary32 values *)

Ltac compare_cases :=
  repeat match goal with
  | H : context [Z.compare ?x ?y] |- _ => destruct (Z.compare_spec x y)
  | |- context [Z.compare ?x ?y] => destruct (Z.compare_spec x y)
  | H : context [Pos.compare_cont Eq ?x ?y] |- _ =>
      change (Pos.compare_cont Eq x y) with (Pos.compare x y) in H;
      destruct (Pos.compare_spec x y)
  | |- context [Pos.compare_cont Eq ?x ?y] =>
      change (Pos.compare_cont Eq x y) with (Pos.compare x y);
      destruct (Pos.compare_spec x y)
  end.

Ltac float_cases a :=
  let s := fresh "s" in let m := fresh "m" in let e := fresh "e" in
  destruct a as [s|s| |s m e]; try destruct s.

Lemma gt_trans a b c : F32.gt a b = true -> F32.gt b c = true -> F32.gt a c = true.
Proof.
  unfold F32.gt, SFltb, SFcompare.
  float_cases a; float_cases b; float_cases c; simpl;
    try discriminate; try reflexivity; intros Hab Hbc;
    compare_cases; simpl in *; try discriminate; try reflexivity; try lia.
Qed.

Lemma gt_below a b c :
  F32.gt b a = false -> F32.is_nan a = false -> F32.is_nan b = false ->
  F32.gt c a = true -> F32.gt c b = true.
Proof.
  unfold F32.gt, F32.is_nan, SFltb, SFcompare.
  float_cases a; float_cases b; float_cases c; simpl;
    try discriminate; try reflexivity; intros Hab _ _ Hac;
    compare_cases; simpl in *; try discriminate; try reflexivity; try lia.
Qed.

Lemma gt_irrefl a : F32.gt a a = false.
Proof.
  unfold F32.gt, SFltb, SFcompare.
  float_cases a; simpl; try reflexivity;
    compare_cases; simpl in *; try discriminate; try reflexivity; try lia.
Qed.

Lemma gt_not_nan a b : F32.gt a b = true -> F32.is_nan a = false /\ F32.is_nan b = false.
Proof.
  unfold F32.gt, SFltb, SFcompare.
  float_cases a; float_cases b; simpl; try discriminate; auto.
Qed.

Lemma gt_not_above a b c :
  F32.gt a b = false -> F32.gt c b = true -> F32.gt a c = false.
Proof.
  intros Hab Hcb. destruct (F32.gt a c) eqn:Hac; [|reflexivity].
  rewrite (gt_trans a c b Hac Hcb) in Hab. discriminate.
Qed.

(** ** [InsertSorted] *)

Section InsertSortedFacts.

Import AudioFFTBase.
Local Open Scope nat_scope.
Implicit Types (r l p q : list AudioFFTResult.t) (tmp x : AudioFFTResult.t).

Lemma shift_right_steps : forall (k j : nat) l,
  j + k + 1 = length l ->
  fold_left (fun r i => match r !! i with
                        | Some x => <[S i := x]> r
                        | None => r
                        end) (rev (seq j k)) l =
  take (S j) l ++ take k (drop j l).
Proof.
  induction k as [|k IH]; intros j l Hlen.
  - simpl. rewrite app_nil_r, take_ge; [reflexivity|lia].
  - cbn [seq rev]. rewrite fold_left_app, (IH (S j)) by lia. cbn [fold_left].
    destruct (lookup_lt_is_Some_2 l j ltac:(lia)) as [x Hx].
    destruct (lookup_lt_is_Some_2 l (S j) ltac:(lia)) as [y Hy].
    rewrite (take_S_r l (S j) y Hy).
    rewrite <- app_assoc.
    rewrite lookup_app_l by (rewrite length_take; lia).
    rewrite lookup_take_lt by lia. rewrite Hx.
    rewrite insert_app_r_alt by (rewrite length_take; lia).
    rewrite length_take, Nat.min_l by lia.
    replace (S j - S j) with 0 by lia. cbn [app]. simpl.
    rewrite (drop_S l x j Hx). reflexivity.
Qed.

Lemma shift_right_spec j l :
  j < length l ->
  shift_right j l = take (S j) l ++ take (length l - 1 - j) (drop j l).
Proof. intros Hj. unfold shift_right. apply shift_right_steps. lia. Qed.

Lemma InsertSorted_step_insert tmp p x q :
  F32.gt (AudioFFTResult.magnitude tmp) (AudioFFTResult.magnitude x) = true ->
  InsertSorted_step tmp (p ++ x :: q) (length p) = p ++ tmp :: take (length q) (x :: q).
Proof.
  intros Hgt. unfold InsertSorted_step.
  rewrite list_lookup_middle by reflexivity. rewrite Hgt.
  rewrite shift_right_spec by (rewrite length_app; simpl; lia).
  rewrite length_app. simpl length.
  replace (length p + S (length q) - 1 - length p) with (length q) by lia.
  rewrite drop_app_length.
  replace (S (length p)) with (length p + 1) by lia.
  rewrite take_app_add. cbn [take].
  rewrite <- app_assoc. rewrite insert_app_r_alt by lia.
  replace (length p - length p) with 0 by lia. reflexivity.
Qed.

Lemma InsertSorted_step_skip tmp l j x :
  l !! j = Some x ->
  F32.gt (AudioFFTResult.magnitude tmp) (AudioFFTResult.magnitude x) = false ->
  InsertSorted_step tmp l j = l.
Proof. intros Hx Hgt. unfold InsertSorted_step. now rewrite Hx, Hgt. Qed.

Lemma first_below_le m l : first_below m l <= length l.
Proof. induction l as [|x l IH]; simpl; [lia|]. destruct (F32.gt _ _); lia. Qed.

Lemma first_below_before m l j :
  j < first_below m l ->
  exists x, l !! j = Some x /\ F32.gt m (AudioFFTResult.magnitude x) = false.
Proof.
  revert j. induction l as [|y l IH]; intros j Hj; simpl in Hj; [lia|].
  destruct (F32.gt m (AudioFFTResult.magnitude y)) eqn:Hy; [lia|].
  destruct j as [|j]; [exists y; auto|]. apply IH. lia.
Qed.

Lemma first_below_at m l :
  first_below m l < length l ->
  exists x, l !! first_below m l = Some x /\
            F32.gt m (AudioFFTResult.magnitude x) = true.
Proof.
  induction l as [|y l IH]; simpl; intros Hj; [lia|].
  destruct (F32.gt m (AudioFFTResult.magnitude y)) eqn:Hy.
  - exists y. auto.
  - apply IH. lia.
Qed.

Lemma InsertSorted_skips tmp l : forall n,
  n <= first_below (AudioFFTResult.magnitude tmp) l ->
  fold_left (InsertSorted_step tmp) (seq 0 n) l = l.
Proof.
  induction n as [|n IH]; intros Hn; [reflexivity|].
  rewrite seq_S, fold_left_app, IH by lia. simpl.
  destruct (first_below_before (AudioFFTResult.magnitude tmp) l n ltac:(lia))
    as (x & Hx & Hgt).
  now apply (InsertSorted_step_skip tmp l n x).
Qed.

Lemma InsertSorted_fills tmp p x q :
  F32.gt (AudioFFTResult.magnitude tmp) (AudioFFTResult.magnitude x) = true ->
  forall k, k <= S (length q) ->
  fold_left (InsertSorted_step tmp) (seq (length p) k) (p ++ x :: q) =
  p ++ replicate k tmp ++ take (S (length q) - k) (x :: q).
Proof.
  intros Hgt. induction k as [|k IH]; intros Hk.
  - simpl. rewrite take_ge by (simpl; lia). reflexivity.
  - rewrite seq_S, fold_left_app, IH by lia. cbn [fold_left].
    replace (S (length q) - k) with (S (length q - k)) by lia.
    cbn [take].
    assert (Hp : length p + k = length (p ++ replicate k tmp)).
    { rewrite length_app, length_replicate. reflexivity. }
    rewrite app_assoc, Hp.
    rewrite InsertSorted_step_insert by exact Hgt.
    rewrite <- app_assoc. f_equal.
    rewrite length_take, Nat.min_l by lia.
    replace (S k) with (k + 1) by lia. rewrite replicate_add. cbn [replicate].
    rewrite <- app_assoc. cbn [app]. do 2 f_equal.
    replace (S (length q) - (k + 1)) with (length q - k) by lia.
    change (x :: take (length q - k) q) with (take (S (length q - k)) (x :: q)).
    rewrite take_take. f_equal. lia.
Qed.

(** What [InsertSorted] computes: the slots before the first one whose
    magnitude is below the candidate's are kept, and every slot from there
    to the end of the array receives the candidate. *)
Lemma InsertSorted_spec l tmp :
  InsertSorted l tmp =
  (let j := first_below (AudioFFTResult.magnitude tmp) l in
   take j l ++ replicate (length l - j) tmp, false).
Proof.
  unfold InsertSorted. f_equal. cbv zeta.
  set (j := first_below (AudioFFTResult.magnitude tmp) l).
  pose proof (first_below_le (AudioFFTResult.magnitude tmp) l) as Hle. fold j in Hle.
  replace (length l) with (j + (length l - j)) at 1 by lia.
  rewrite seq_app, fold_left_app, InsertSorted_skips by (fold j; lia).
  destruct (Nat.eq_dec j (length l)) as [Heq|Hne].
  - rewrite Heq, Nat.sub_diag. simpl. now rewrite take_ge, app_nil_r by lia.
  - destruct (first_below_at (AudioFFTResult.magnitude tmp) l) as (x & Hx & Hgt);
      [fold j; lia|]. fold j in Hx.
    pose proof (InsertSorted_fills tmp (take j l) x (drop (S j) l) Hgt
                  (S (length (drop (S j) l))) (le_n _)) as Hfill.
    rewrite (take_drop_middle l j x Hx), Nat.sub_diag in Hfill.
    rewrite length_take, length_drop, Nat.min_l in Hfill by lia.
    replace (S (length l - S j)) with (length l - j) in Hfill by lia.
    simpl in Hfill. now rewrite app_nil_r in Hfill.
Qed.

End InsertSortedFacts.

(** ** [result] and [resultArray] *)

Section ResultFacts.

Import AudioFFTBase.

Context {D : Type} `{FFTDriver.Driver D}.

Local Abbreviation state := (@AudioFFTBase.t D).

(** The loop of [result()] after its first [n] passes. *)
Local Abbreviation scan st n :=
  (fold_left (result_step st) (map Z.of_nat (seq 1 n)) (0, F32.zero)).

Lemma scan_S (st : state) n :
  scan st (S n) = result_step st (scan st n) (Z.of_nat (S n)).
Proof.
  rewrite seq_S, map_app, fold_left_app. reflexivity.
Qed.

Lemma scan_spec (st : state) (n : nat) :
  let b := fst (scan st n) in
  let m := snd (scan st n) in
  (forall j, 1 <= j <= Z.of_nat n -> F32.gt (magnitude st j) m = false) /\
  ((b = 0 /\ m = F32.zero) \/
   (1 <= b <= Z.of_nat n /\ m = magnitude st b /\ F32.gt m F32.zero = true /\
    forall j, 1 <= j < b -> F32.is_nan (magnitude st j) = false ->
              F32.gt m (magnitude st j) = true)).
Proof.
  induction n as [|n IH].
  - simpl. split; [intros j Hj; lia|]. left. auto.
  - rewrite scan_S. destruct (scan st n) as [b m]. simpl in IH.
    destruct IH as [Hmax Hcase]. unfold result_step. cbn [snd].
    destruct (F32.gt (magnitude st (Z.of_nat (S n))) m) eqn:Hgt; cbn [fst snd].
    + destruct (gt_not_nan _ _ Hgt) as [_ Hm].
      split.
      * intros j Hj. destruct (Z.eq_dec j (Z.of_nat (S n))) as [->|Hne].
        -- apply gt_irrefl.
        -- apply (gt_not_above _ m); [apply Hmax; lia|exact Hgt].
      * right. split; [lia|]. split; [reflexivity|]. split.
        -- destruct Hcase as [[_ ->]|(_ & _ & Hpos & _)]; [exact Hgt|].
           exact (gt_trans _ _ _ Hgt Hpos).
        -- intros j Hj Hnan. apply (gt_below m); try assumption. apply Hmax. lia.
    + split.
      * intros j Hj. destruct (Z.eq_dec j (Z.of_nat (S n))) as [->|Hne];
          [exact Hgt|apply Hmax; lia].
      * destruct Hcase as [Hz|(Hb & Hm & Hpos & Hbefore)]; [left; exact Hz|].
        right. split; [lia|]. auto.
Qed.

Lemma result_scan (st : state) :
  result st =
  let ret := scan st (Z.to_nat (Z.quot (len st) 2) - 1) in
  AudioFFTResult.mk (fst ret) (snd ret) (frequency st (fst ret)).
Proof. reflexivity. Qed.

(** C4 (as amended).  [result()] scans bins 1 .. len/2 - 1 starting from a
    zero-magnitude bin-0 result, not from bin 1.  When no scanned bin has a
    magnitude above zero (in particular when len/2 <= 1) it returns bin 0
    with magnitude 0.  When some scanned bin has a magnitude above zero and
    no scanned magnitude is a NaN, it returns the lowest bin of greatest
    magnitude, with that magnitude.  A scanned bin whose magnitude is above
    zero and above every other scanned magnitude is the bin returned.  The
    frequency returned is that of the bin returned. *)
Theorem result_dominant (st : state) :
  let r := result st in
  let n := Z.quot (len st) 2 in
  AudioFFTResult.frequency r = frequency st (AudioFFTResult.bin r) /\
  (n <= 1 ->
   AudioFFTResult.bin r = 0 /\ AudioFFTResult.magnitude r = F32.zero) /\
  ((forall j, 1 <= j < n -> F32.gt (magnitude st j) F32.zero = false) ->
   AudioFFTResult.bin r = 0 /\ AudioFFTResult.magnitude r = F32.zero) /\
  (forall k, 1 <= k < n -> F32.gt (magnitude st k) F32.zero = true ->
   (forall j, 1 <= j < n -> F32.is_nan (magnitude st j) = false) ->
   is_dominant st (AudioFFTResult.bin r) /\
   AudioFFTResult.magnitude r = magnitude st (AudioFFTResult.bin r)) /\
  (forall k, 1 <= k < n -> F32.gt (magnitude st k) F32.zero = true ->
   (forall j, 1 <= j < n -> j <> k ->
              F32.gt (magnitude st k) (magnitude st j) = true) ->
   AudioFFTResult.bin r = k).
Proof.
  intros r n. unfold r. rewrite result_scan. cbv zeta. cbn [AudioFFTResult.bin
    AudioFFTResult.magnitude AudioFFTResult.frequency].
  pose proof (scan_spec st (Z.to_nat n - 1)) as Hscan. cbv zeta in Hscan.
  fold n. set (ret := scan st (Z.to_nat n - 1)) in *.
  destruct Hscan as [Hmax Hcase].
  assert (Hrange : forall j, 1 <= j < n <-> 1 <= j <= Z.of_nat (Z.to_nat n - 1)) by lia.
  assert (Hquiet : (forall j, 1 <= j < n -> F32.gt (magnitude st j) F32.zero = false) ->
                   fst ret = 0 /\ snd ret = F32.zero).
  { intros Hq. destruct Hcase as [Hz|(Hb & Hm & Hpos & _)]; [exact Hz|].
    rewrite Hm, Hq in Hpos by (apply Hrange; lia). discriminate. }
  split; [reflexivity|]. split; [|split; [exact Hquiet|split]].
  - intros Hn. apply Hquiet. intros j Hj. lia.
  - intros k Hk Hpos Hnan.
    destruct Hcase as [[Hb Hm]|(Hb & Hm & _ & Hbefore)].
    + specialize (Hmax k (proj1 (Hrange k) Hk)). rewrite Hm, Hpos in Hmax. discriminate.
    + split; [|exact Hm]. split; [apply Hrange; lia|]. split.
      * intros j Hj. rewrite <- Hm. apply Hmax, Hrange, Hj.
      * intros j Hj. rewrite <- Hm. apply Hbefore; [lia|]. apply Hnan. lia.
  - intros k Hk Hpos Hpeak.
    specialize (Hmax k (proj1 (Hrange k) Hk)).
    destruct Hcase as [[Hb Hm]|(Hb & Hm & _ & _)].
    + rewrite Hm, Hpos in Hmax. discriminate.
    + destruct (Z.eq_dec (fst ret) k) as [Heq|Hne]; [exact Heq|].
      rewrite Hm, Hpeak in Hmax; [discriminate|apply Hrange; lia|exact Hne].
Qed.

(** ** [resultArray] keeps a single entry *)

Lemma first_below_uniform m s (l : list AudioFFTResult.t) :
  Forall (fun x => AudioFFTResult.magnitude x = s) l ->
  first_below m l = if F32.gt m s then 0%nat else length l.
Proof.
  induction 1 as [|x l Hx _ IH]; simpl.
  - now destruct (F32.gt m s).
  - rewrite Hx. destruct (F32.gt m s); [reflexivity|now rewrite IH].
Qed.

Lemma InsertSorted_uniform s (l : list AudioFFTResult.t) tmp :
  Forall (fun x => AudioFFTResult.magnitude x = s) l ->
  fst (InsertSorted l tmp) =
  if F32.gt (AudioFFTResult.magnitude tmp) s
  then replicate (length l) tmp else l.
Proof.
  intros Hs. rewrite InsertSorted_spec. cbv zeta. cbn [fst].
  rewrite (first_below_uniform _ s l Hs).
  destruct (F32.gt _ s).
  - now rewrite Nat.sub_0_r.
  - now rewrite firstn_all, Nat.sub_diag, app_nil_r.
Qed.

(** Whatever the spectrum and the capacity, the array [resultArray] returns
    holds one scanned bin in all its slots, unless no scanned magnitude is
    above the initial -1000000 and the array is returned as initialised. *)
Lemma resultArray_single_entry (st : state) (result0 : list AudioFFTResult.t) :
  let out := resultArray st result0 in
  out = map (AudioFFTResult.set_magnitude (F32.of_int (-1000000))) result0 \/
  exists j, In j (scanned_bins st) /\
    out = replicate (length result0)
            (AudioFFTResult.mk j (magnitude st j) (frequency st j)).
Proof.
  unfold resultArray.
  set (init := map _ result0).
  assert (Hinit : Forall (fun x => AudioFFTResult.magnitude x = F32.of_int (-1000000)) init).
  { unfold init. apply List.Forall_forall. intros x Hx.
    apply in_map_iff in Hx as (y & <- & _). reflexivity. }
  assert (Hlen : length init = length result0) by apply length_map.
  set (step := fun r j => fst (InsertSorted r _)).
  assert (Hgen : forall js l,
    (l = init \/ exists j, In j (scanned_bins st) /\
       l = replicate (length result0)
             (AudioFFTResult.mk j (magnitude st j) (frequency st j))) ->
    (forall j, In j js -> In j (scanned_bins st)) ->
    let out := fold_left step js l in
    out = init \/ exists j, In j (scanned_bins st) /\
       out = replicate (length result0)
               (AudioFFTResult.mk j (magnitude st j) (frequency st j))).
  { induction js as [|j js IH]; intros l Hl Hjs; [exact Hl|].
    simpl. apply IH; [|intros j' Hj'; apply Hjs; now right].
    unfold step.
    destruct Hl as [->|(j0 & Hj0 & ->)].
    - rewrite (InsertSorted_uniform _ init _ Hinit). simpl.
      destruct (F32.gt _ _); [|now left].
      right. exists j. split; [apply Hjs; now left|now rewrite Hlen].
    - rewrite (InsertSorted_uniform (magnitude st j0)).
      2: { apply List.Forall_forall. intros x Hx.
           apply list_elem_of_In, elem_of_replicate in Hx as [-> _]. reflexivity. }
      simpl. destruct (F32.gt _ _).
      + right. exists j. split; [apply Hjs; now left|].
        now rewrite length_replicate.
      + right. exists j0. auto. }
  apply Hgen; [now left|auto].
Qed.

End ResultFacts.

(** ** Exact binary32 arithmetic on integers *)

Section Binary32.

Import F32.

Lemma digits2_pos_size p : digits2_pos p = Pos.size p.
Proof. induction p as [p IH|p IH|]; simpl; congruence. Qed.

Lemma Zdigits2_log2 z : 0 < z -> Zdigits2 z = Z.log2 z + 1.
Proof.
  destruct z as [|p|p]; try lia. intros _. simpl Zdigits2.
  rewrite digits2_pos_size. destruct p; simpl; lia.
Qed.

Lemma iter_pos_nat {A : Type} (f : A -> A) p : forall x,
  SpecFloat.iter_pos f p x = Nat.iter (Pos.to_nat p) f x.
Proof.
  induction p as [p IH|p IH|]; intros x; simpl SpecFloat.iter_pos.
  - rewrite !IH, Pos2Nat.inj_xI, <- Nat.iter_add, <- Nat.iter_succ_r.
    f_equal. lia.
  - rewrite !IH, Pos2Nat.inj_xO, <- Nat.iter_add. f_equal. lia.
  - reflexivity.
Qed.

Lemma shr_1_double z :
  0 < z ->
  shr_1 (Build_shr_record (2 * z) false false) = Build_shr_record z false false.
Proof. destruct z; try lia. reflexivity. Qed.

Lemma shr_iter_exact (n : nat) : forall z,
  0 < z ->
  Nat.iter n shr_1 (Build_shr_record (z * 2 ^ Z.of_nat n) false false) =
  Build_shr_record z false false.
Proof.
  induction n as [|n IH]; intros z Hz.
  - simpl. now rewrite Z.mul_1_r.
  - rewrite Nat2Z.inj_succ, Z.pow_succ_r by lia.
    replace (z * (2 * 2 ^ Z.of_nat n)) with (2 * z * 2 ^ Z.of_nat n) by ring.
    rewrite Nat.iter_succ, IH by lia. now apply shr_1_double.
Qed.

Lemma shr_exact z e t :
  0 < z -> 0 <= t ->
  shr (Build_shr_record (z * 2 ^ t) false false) e t =
  (Build_shr_record z false false, e + t).
Proof.
  intros Hz Ht. destruct t as [|k|k]; try lia.
  - simpl. now rewrite Z.mul_1_r, Z.add_0_r.
  - unfold shr. rewrite iter_pos_nat.
    rewrite <- (positive_nat_Z k) at 1. now rewrite shr_iter_exact.
Qed.

Lemma fexp_normal d : -125 <= d -> fexp 24 128 d = d - 24.
Proof. intros Hd. unfold fexp, emin. lia. Qed.

(** Rounding an integer mantissa whose 24 leading bits are followed by
    zeros only is exact. *)
Lemma binary_round_aux_exact s m e t :
  0 < m -> 0 <= t -> Z.log2 m = 23 ->
  -149 <= e + t <= 104 ->
  binary_round_aux 24 128 s (m * 2 ^ t) e loc_Exact =
  S754_finite s (Z.to_pos m) (e + t).
Proof.
  intros Hm Ht Hlog He.
  assert (Hpow : 0 < 2 ^ t) by (apply Z.pow_pos_nonneg; lia).
  assert (Hfirst : shr_fexp 24 128 (m * 2 ^ t) e loc_Exact =
                   (Build_shr_record m false false, e + t)).
  { unfold shr_fexp. rewrite Zdigits2_log2 by nia.
    rewrite Z.log2_mul_pow2, Hlog by lia.
    rewrite fexp_normal by lia. simpl shr_record_of_loc.
    replace (t + 23 + 1 + e - 24 - e) with t by lia.
    now apply shr_exact. }
  assert (Hsecond : shr_fexp 24 128 m (e + t) loc_Exact =
                    (Build_shr_record m false false, e + t)).
  { unfold shr_fexp. rewrite Zdigits2_log2, Hlog by lia.
    rewrite fexp_normal by lia.
    replace (23 + 1 + (e + t) - 24 - (e + t)) with 0 by lia. reflexivity. }
  unfold binary_round_aux. rewrite Hfirst. simpl shr_m. simpl loc_of_shr_record.
  simpl round_nearest_even. rewrite Hsecond. simpl shr_m.
  destruct m as [|p|p]; try lia. simpl Z.to_pos.
  destruct (Z.leb_spec (e + t) (128 - 24)); [reflexivity|lia].
Qed.

(** The canonical mantissa and exponent of a positive integer that fits. *)
Lemma represent_props z :
  0 < z -> fits z = true ->
  0 < mantissa z /\ Z.log2 (mantissa z) = 23 /\ -23 <= exponent z /\
  forall K, 23 <= K -> mantissa z * 2 ^ (exponent z + K) = z * 2 ^ K.
Proof.
  intros Hz Hfits. unfold fits in Hfits. apply Z.eqb_eq in Hfits.
  pose proof (Z.log2_nonneg z) as Hlog.
  unfold mantissa. unfold exponent in *.
  destruct (Z.le_gt_cases (Z.log2 z - 23) 0) as [Hsmall|Hbig].
  - rewrite Z.shiftl_mul_pow2 by lia.
    assert (Hp : 0 < 2 ^ (- (Z.log2 z - 23))) by (apply Z.pow_pos_nonneg; lia).
    split; [nia|]. split; [rewrite Z.log2_mul_pow2 by lia; lia|]. split; [lia|].
    intros K HK. rewrite <- Z.mul_assoc, <- Z.pow_add_r by lia.
    f_equal. f_equal. lia.
  - rewrite Z.max_r in Hfits by lia.
    rewrite Z.shiftl_div_pow2, Z.opp_involutive by lia.
    assert (Hp : 0 < 2 ^ (Z.log2 z - 23)) by (apply Z.pow_pos_nonneg; lia).
    pose proof (Z.div_mod z (2 ^ (Z.log2 z - 23)) ltac:(lia)) as Hdm.
    rewrite Hfits, Z.add_0_r in Hdm.
    set (m := z / 2 ^ (Z.log2 z - 23)) in *.
    assert (Hm : 0 < m) by nia.
    split; [exact Hm|]. split.
    + assert (Hl : Z.log2 z = (Z.log2 z - 23) + Z.log2 m).
      { rewrite Hdm at 1. rewrite Z.mul_comm. apply Z.log2_mul_pow2; lia. }
      lia.
    + split; [lia|]. intros K HK.
      rewrite Z.pow_add_r by lia. rewrite Hdm at 2. ring.
Qed.

Lemma represent_pos z :
  0 < z -> represent z = S754_finite false (Z.to_pos (mantissa z)) (exponent z).
Proof. destruct z; try lia. reflexivity. Qed.

Lemma log2_mantissa_product a b :
  0 < a -> 0 < b -> Z.log2 a = 23 -> Z.log2 b = 23 ->
  46 <= Z.log2 (a * b) <= 47.
Proof.
  intros Ha Hb Hla Hlb.
  pose proof (Z.log2_spec a Ha) as Hsa. pose proof (Z.log2_spec b Hb) as Hsb.
  rewrite Hla in Hsa. rewrite Hlb in Hsb.
  change (2 ^ 23) with 8388608 in *. change (2 ^ Z.succ 23) with 16777216 in *.
  split.
  - apply Z.log2_le_pow2; [nia|]. change (2 ^ 46) with (8388608 * 8388608). nia.
  - apply Z.lt_succ_r. apply Z.log2_lt_pow2; [nia|].
    change (2 ^ Z.succ 47) with (16777216 * 16777216). nia.
Qed.

Lemma pow2_cancel a b x y :
  0 <= x -> 0 <= y -> 0 < a -> 0 < b ->
  a * 2 ^ x = b * 2 ^ y ->
  Z.log2 a + x = Z.log2 b + y.
Proof.
  intros Hx Hy Ha Hb Heq.
  pose proof (Z.log2_mul_pow2 a x Ha Hx) as H1.
  pose proof (Z.log2_mul_pow2 b y Hb Hy) as H2.
  rewrite Heq in H1. lia.
Qed.

Lemma of_int_represent z :
  0 <= z < 2 ^ 64 -> fits z = true ->
  binary_normalize 24 128 z 0 false = represent z.
Proof.
  intros Hz Hfits. destruct z as [|p|p]; try lia; [reflexivity|].
  destruct (represent_props (Zpos p) ltac:(lia) Hfits) as (Hm & Hlm & Hex & Hval).
  assert (Hlog : Z.log2 (Zpos p) < 64) by (apply Z.log2_lt_pow2; lia).
  pose proof (Z.log2_nonneg (Zpos p)) as Hlog0.
  rewrite represent_pos by lia.
  unfold binary_normalize, binary_round, shl_align.
  change (Zpos (digits2_pos p)) with (Zdigits2 (Zpos p)).
  rewrite Zdigits2_log2, fexp_normal by lia.
  replace (Z.log2 (Zpos p) + 1 + 0 - 24 - 0) with (exponent (Zpos p)) by (unfold exponent; lia).
  replace (Z.log2 (Zpos p) + 1 + 0 - 24) with (exponent (Zpos p)) by (unfold exponent; lia).
  destruct (exponent (Zpos p)) as [|k|k] eqn:Hk.
  - pose proof (binary_round_aux_exact false (Zpos p) 0 0) as Hr.
    rewrite Z.mul_1_r in Hr. rewrite Hr; try lia.
    + unfold mantissa. rewrite Hk. reflexivity.
    + unfold exponent in Hk. lia.
  - pose proof (Hval 23 ltac:(lia)) as H23.
    assert (Hsplit : Zpos p = mantissa (Zpos p) * 2 ^ Zpos k).
    { rewrite Z.pow_add_r in H23 by lia.
      apply (Z.mul_reg_r _ _ (2 ^ 23)); [lia|]. rewrite <- H23. ring. }
    rewrite Hsplit at 1.
    assert (Hk' : Zpos k < 41) by (unfold exponent in Hk; lia).
    rewrite binary_round_aux_exact by (assumption || lia). reflexivity.
  - assert (Hiter : Zpos (Pos.iter xO p k) = mantissa (Zpos p)).
    { unfold mantissa. rewrite Hk. change (- Z.neg k) with (Z.pos k).
      rewrite Z.shiftl_mul_pow2 by lia.
      clear. induction k as [|k IH] using Pos.peano_ind.
      - simpl Pos.iter. change (2 ^ 1) with 2. lia.
      - rewrite Pos.iter_succ, Pos2Z.inj_xO, IH, Pos2Z.inj_succ, Z.pow_succ_r by lia.
        ring. }
    rewrite Hiter.
    pose proof (binary_round_aux_exact false (mantissa (Zpos p)) (Zneg k) 0) as Hr.
    rewrite Z.mul_1_r, Z.add_0_r in Hr.
    rewrite Hr by (assumption || lia). reflexivity.
Qed.

Lemma mul_represent a b :
  0 <= a -> 0 <= b -> a * b < 2 ^ 64 ->
  fits a = true -> fits b = true -> fits (a * b) = true ->
  SFmul 24 128 (represent a) (represent b) = represent (a * b).
Proof.
  intros Ha Hb Hab Hfa Hfb Hfab.
  destruct (Z.eq_dec a 0) as [->|Ha0].
  { simpl. destruct b; reflexivity. }
  destruct (Z.eq_dec b 0) as [->|Hb0].
  { rewrite Z.mul_0_r. destruct a; reflexivity. }
  assert (Hpos : 0 < a * b) by nia.
  destruct (represent_props a ltac:(lia) Hfa) as (Hma & Hla & Hea & Hva).
  destruct (represent_props b ltac:(lia) Hfb) as (Hmb & Hlb & Heb & Hvb).
  destruct (represent_props (a * b) Hpos Hfab) as (Hmc & Hlc & Hec & Hvc).
  assert (Hlog : Z.log2 (a * b) < 64) by (apply Z.log2_lt_pow2; lia).
  rewrite !represent_pos by lia. unfold SFmul. simpl xorb.
  rewrite Pos2Z.inj_mul, !Z2Pos.id by lia.
  pose proof (log2_mantissa_product _ _ Hma Hmb Hla Hlb) as Hlp.
  set (K := 64).
  assert (Heq : mantissa a * mantissa b * 2 ^ (exponent a + exponent b + 2 * K) =
                mantissa (a * b) * 2 ^ (exponent (a * b) + 2 * K)).
  { replace (exponent a + exponent b + 2 * K) with ((exponent a + K) + (exponent b + K)) by lia.
    replace (exponent (a * b) + 2 * K) with ((exponent (a * b) + K) + K) by lia.
    rewrite (Z.pow_add_r 2 (exponent a + K)), (Z.pow_add_r 2 (exponent (a * b) + K))
      by (unfold K; lia).
    replace (mantissa a * mantissa b * (2 ^ (exponent a + K) * 2 ^ (exponent b + K)))
      with ((mantissa a * 2 ^ (exponent a + K)) * (mantissa b * 2 ^ (exponent b + K))) by ring.
    replace (mantissa (a * b) * (2 ^ (exponent (a * b) + K) * 2 ^ K))
      with ((mantissa (a * b) * 2 ^ (exponent (a * b) + K)) * 2 ^ K) by ring.
    rewrite Hva, Hvb, Hvc by (unfold K; lia). ring. }
  assert (Hexp : Z.log2 (mantissa a * mantissa b) + (exponent a + exponent b + 2 * K) =
                 Z.log2 (mantissa (a * b)) + (exponent (a * b) + 2 * K)).
  { apply pow2_cancel; try assumption; try (unfold K; lia); nia. }
  set (t := exponent (a * b) - exponent a - exponent b).
  assert (Ht : 0 <= t) by (unfold t; lia).
  assert (Hsplit : mantissa a * mantissa b = mantissa (a * b) * 2 ^ t).
  { apply (Z.mul_reg_r _ _ (2 ^ (exponent a + exponent b + 2 * K))).
    - apply Z.pow_nonzero; unfold K; lia.
    - rewrite Heq, <- Z.mul_assoc, <- Z.pow_add_r by (unfold K; lia).
      f_equal. f_equal. unfold t. lia. }
  rewrite Hsplit, binary_round_aux_exact; try assumption.
  - f_equal. unfold t. lia.
  - unfold t, exponent in *. lia.
Qed.

Lemma div_represent p l :
  0 <= p < 2 ^ 64 -> 0 < l < 2 ^ 64 -> (l | p) ->
  fits p = true -> fits l = true -> fits (p / l) = true ->
  SFdiv 24 128 (represent p) (represent l) = represent (p / l).
Proof.
  intros Hp Hl [q Hq] Hfp Hfl Hfq.
  rewrite Hq, Z.div_mul in * by lia.
  destruct (Z.eq_dec q 0) as [->|Hq0].
  { simpl. destruct l; try lia. reflexivity. }
  assert (Hqpos : 0 < q) by nia.
  destruct (represent_props (q * l) ltac:(nia) Hfp) as (Hmp & Hlp & Hep & Hvp).
  destruct (represent_props l ltac:(lia) Hfl) as (Hml & Hll & Hel & Hvl).
  destruct (represent_props q Hqpos Hfq) as (Hmq & Hlq & Heq' & Hvq).
  assert (Hlogp : Z.log2 (q * l) < 64) by (apply Z.log2_lt_pow2; lia).
  assert (Hlogl : Z.log2 l < 64) by (apply Z.log2_lt_pow2; lia).
  assert (Hlogq : Z.log2 q < 64) by (apply Z.log2_lt_pow2; nia).
  rewrite !represent_pos by nia. unfold SFdiv. simpl xorb.
  unfold SFdiv_core_binary.
  rewrite !Z2Pos.id by lia.
  rewrite !Zdigits2_log2, Hlp, Hll by lia.
  set (ep := exponent (q * l)) in *. set (el := exponent l) in *. set (eq := exponent q) in *.
  set (mp := mantissa (q * l)) in *. set (ml := mantissa l) in *. set (mq := mantissa q) in *.
  assert (Hep' : ep < 41) by (unfold ep, exponent; lia).
  assert (Hel' : el < 41) by (unfold el, exponent; lia).
  assert (Heq'' : eq < 41) by (unfold eq, exponent; lia).
  rewrite fexp_normal by lia.
  replace (Z.min (23 + 1 + ep - (23 + 1 + el) - 24) (ep - el))
    with (ep - el - 24) by lia.
  replace (ep - el - (ep - el - 24)) with 24 by lia.
  rewrite Z.shiftl_mul_pow2 by lia.
  pose proof (log2_mantissa_product _ _ Hmq Hml Hlq Hll) as Hlprod.
  set (K := 64).
  assert (Heqn : mp * 2 ^ (ep + 2 * K) = mq * ml * 2 ^ (eq + el + 2 * K)).
  { replace (ep + 2 * K) with ((ep + K) + K) by lia.
    replace (eq + el + 2 * K) with ((eq + K) + (el + K)) by lia.
    rewrite (Z.pow_add_r 2 (ep + K)), (Z.pow_add_r 2 (eq + K))
      by (unfold K; lia).
    replace (mq * ml * (2 ^ (eq + K) * 2 ^ (el + K)))
      with ((mq * 2 ^ (eq + K)) * (ml * 2 ^ (el + K))) by ring.
    replace (mp * (2 ^ (ep + K) * 2 ^ K))
      with ((mp * 2 ^ (ep + K)) * 2 ^ K) by ring.
    unfold mp, ep, mq, eq, ml, el.
    rewrite Hvp, Hvl, Hvq by (unfold K; lia). ring. }
  assert (Hexp : Z.log2 mp + (ep + 2 * K) =
                 Z.log2 (mq * ml) + (eq + el + 2 * K)).
  { apply pow2_cancel; try assumption; try (unfold K; lia); nia. }
  set (u := eq + el - ep + 24).
  assert (Hu : 0 <= u <= 1) by (unfold u; lia).
  assert (Hsplit : mp * 2 ^ 24 = ml * (mq * 2 ^ u)).
  { apply (Z.mul_reg_r _ _ (2 ^ (ep + 2 * K))).
    - apply Z.pow_nonzero; unfold K; lia.
    - replace (mp * 2 ^ 24 * 2 ^ (ep + 2 * K))
        with (mp * 2 ^ (ep + 2 * K) * 2 ^ 24) by ring.
      rewrite Heqn.
      replace (ml * (mq * 2 ^ u) * 2 ^ (ep + 2 * K))
        with (mq * ml * (2 ^ u * 2 ^ (ep + 2 * K))) by ring.
      rewrite <- !Z.mul_assoc, <- !Z.pow_add_r by (unfold K; lia).
      do 3 f_equal. unfold u. lia. }
  rewrite Hsplit.
  assert (Hdiv : Z.div_eucl (ml * (mq * 2 ^ u)) ml = (mq * 2 ^ u, 0)).
  { pose proof (Z.div_mul (mq * 2 ^ u) ml ltac:(lia)) as Hd.
    pose proof (Z.mod_mul (mq * 2 ^ u) ml ltac:(lia)) as Hm.
    rewrite (Z.mul_comm ml). unfold Z.div, Z.modulo in Hd, Hm.
    destruct (Z.div_eucl (mq * 2 ^ u * ml) ml) as [qq rr]. congruence. }
  rewrite Hdiv.
  assert (Hloc : new_location ml 0 = loc_Exact).
  { unfold new_location, new_location_even, new_location_odd.
    destruct (Z.even ml); reflexivity. }
  rewrite Hloc, binary_round_aux_exact; try assumption; try lia.
  f_equal. unfold u. lia.
Qed.

Lemma fits_small z : 0 <= z < 2 ^ 24 -> fits z = true.
Proof.
  intros Hz. unfold fits, exponent.
  assert (Hlog : Z.log2 z <= 23).
  { destruct (Z.eq_dec z 0) as [->|Hnz]; [simpl; lia|].
    assert (Z.log2 z < 24) by (apply Z.log2_lt_pow2; lia). lia. }
  rewrite Z.max_l by lia. now rewrite Z.mod_1_r.
Qed.

Lemma fits_shifted q k : 0 < q < 2 ^ 24 -> 0 <= k -> fits (q * 2 ^ k) = true.
Proof.
  intros Hq Hk. unfold fits, exponent. rewrite Z.log2_mul_pow2 by lia.
  assert (Hlog : Z.log2 q < 24) by (apply Z.log2_lt_pow2; lia).
  pose proof (Z.log2_nonneg q) as Hlog0.
  apply Z.eqb_eq.
  destruct (Z.le_gt_cases (k + Z.log2 q - 23) 0) as [Hle|Hgt].
  - rewrite Z.max_l by lia. apply Z.mod_1_r.
  - rewrite Z.max_r by lia.
    replace k with ((k + Z.log2 q - 23) + (23 - Z.log2 q)) at 1 by lia.
    rewrite Z.pow_add_r by lia.
    replace (q * (2 ^ (k + Z.log2 q - 23) * 2 ^ (23 - Z.log2 q)))
      with (q * 2 ^ (23 - Z.log2 q) * 2 ^ (k + Z.log2 q - 23)) by ring.
    apply Z.mod_mul. apply Z.pow_nonzero; lia.
Qed.

Lemma to_Z_represent z : 0 <= z -> fits z = true -> to_Z (represent z) = Some z.
Proof.
  intros Hz Hfits. destruct (Z.eq_dec z 0) as [->|Hnz]; [reflexivity|].
  destruct (represent_props z ltac:(lia) Hfits) as (Hm & Hlm & Hex & Hval).
  rewrite represent_pos by lia. unfold to_Z. rewrite Z2Pos.id by lia.
  destruct (Z.leb_spec 0 (exponent z)) as [Hpos|Hneg]; simpl.
  - f_equal. pose proof (Hval 23 ltac:(lia)) as H23.
    rewrite Z.pow_add_r in H23 by lia.
    apply (Z.mul_reg_r _ _ (2 ^ 23)); [lia|]. rewrite <- H23. ring.
  - assert (Hmant : mantissa z = z * 2 ^ (- exponent z)).
    { unfold mantissa. apply Z.shiftl_mul_pow2. lia. }
    assert (Hp : 2 ^ (- exponent z) <> 0) by (apply Z.pow_nonzero; lia).
    rewrite Hmant, Z.mod_mul, Z.div_mul by exact Hp. reflexivity.
Qed.

End Binary32.

(** ** [frequency] *)

Section FrequencyFacts.

Import AudioFFTBase.

Context {D : Type} `{FFTDriver.Driver D}.

Local Abbreviation state := (@AudioFFTBase.t D).

Lemma frequency_single_rounding (st : state) (bin : Z) :
  let rate := AudioFFTConfig.sample_rate (cfg st) in
  0 <= bin < 2 ^ 31 -> 0 <= rate < 2 ^ 31 -> 0 < len st < 2 ^ 16 ->
  F32.fits bin = true -> F32.fits rate = true ->
  F32.fits (bin * rate) = true ->
  frequency st bin =
  F32.div (F32.represent (bin * rate)) (F32.represent (len st)).
Proof.
  intros rate Hbin Hrate Hlen Hfb Hfr Hfp.
  assert (Hp : 0 <= bin * rate < 2 ^ 64).
  { change (2 ^ 31) with 2147483648 in *.
    change (2 ^ 64) with (2147483648 * 2147483648 * 4). nia. }
  assert (Hfl : F32.fits (len st) = true).
  { apply fits_small. change (2 ^ 16) with 65536 in Hlen.
    change (2 ^ 24) with 16777216. lia. }
  unfold frequency, F32.div, F32.mul, F32.of_int, F32.prec, F32.emax. fold rate.
  change (2 ^ 31) with 2147483648 in *. change (2 ^ 16) with 65536 in *.
  assert (H64 : 2147483648 < 2 ^ 64) by reflexivity.
  rewrite !of_int_represent by (assumption || lia).
  now rewrite mul_represent by (assumption || lia).
Qed.

Lemma frequency_divisible (st : state) (bin : Z) :
  let rate := AudioFFTConfig.sample_rate (cfg st) in
  0 <= bin < 2 ^ 31 -> 0 <= rate < 2 ^ 31 -> 0 < len st < 2 ^ 16 ->
  F32.fits bin = true -> F32.fits rate = true ->
  F32.fits (bin * rate) = true ->
  (len st | bin * rate) ->
  F32.fits (bin * rate / len st) = true ->
  F32.to_Z (frequency st bin) = Some (bin * rate / len st).
Proof.
  intros rate Hbin Hrate Hlen Hfb Hfr Hfp Hdiv Hfq.
  rewrite (frequency_single_rounding st bin Hbin Hrate Hlen Hfb Hfr Hfp).
  fold rate. unfold F32.div, F32.prec, F32.emax.
  assert (Hp : 0 <= bin * rate < 2 ^ 64).
  { change (2 ^ 31) with 2147483648 in *.
    change (2 ^ 64) with (2147483648 * 2147483648 * 4). nia. }
  assert (Hl : 0 < len st < 2 ^ 64).
  { change (2 ^ 16) with 65536 in Hlen.
    assert (65536 < 2 ^ 64) by reflexivity. lia. }
  rewrite div_represent; try assumption.
  - apply to_Z_represent; [|exact Hfq]. apply Z.div_pos; lia.
  - apply fits_small. change (2 ^ 16) with 65536 in Hlen.
    change (2 ^ 24) with 16777216. lia.
Qed.


(** In the intended use (a power-of-two window, a sample rate below 2^24
    and a bin in the scanned half) the computation is exact whenever the
    window length divides the product. *)
Lemma frequency_exact_power_of_two (st : state) (bin k : Z) :
  let rate := AudioFFTConfig.sample_rate (cfg st) in
  0 <= k < 16 -> len st = 2 ^ k ->
  0 <= rate < 2 ^ 24 ->
  0 <= bin < len st ->
  (len st | bin * rate) ->
  F32.to_Z (frequency st bin) = Some (bin * rate / len st).
Proof.
  intros rate Hk Hlen Hrate Hbin Hdiv.
  assert (Hpk : 0 < 2 ^ k) by (apply Z.pow_pos_nonneg; lia).
  assert (Hk16 : 2 ^ k < 2 ^ 16) by (apply Z.pow_lt_mono_r; lia).
  change (2 ^ 16) with 65536 in Hk16. change (2 ^ 24) with 16777216 in Hrate.
  assert (H31 : 2 ^ 31 = 2147483648) by reflexivity.
  assert (H24 : 2 ^ 24 = 16777216) by reflexivity.
  assert (H16 : 2 ^ 16 = 65536) by reflexivity.
  destruct Hdiv as [q Hq]. rewrite Hlen in Hq, Hbin.
  assert (Hqr : 0 <= q < 16777216) by nia.
  assert (Hfits_p : F32.fits (bin * rate) = true).
  { rewrite Hq. destruct (Z.eq_dec q 0) as [->|Hq0]; [reflexivity|].
    apply fits_shifted; lia. }
  apply frequency_divisible; fold rate; rewrite ?Hlen; try lia.
  - apply fits_small. lia.
  - apply fits_small. lia.
  - exact Hfits_p.
  - now exists q.
  - rewrite Hq, Z.div_mul by lia. apply fits_small. lia.
Qed.

End FrequencyFacts.

(** * The properties on concrete pipelines *)

Section Concrete.

Import AudioFFTBase TableDriver Examples.

Lemma forall_bits_spec (n : nat) : forall f,
  forall_bits n f = true -> forall x, 0 <= x < 2 ^ Z.of_nat n -> f x = true.
Proof.
  induction n as [|n IH]; intros f Hf x Hx.
  - simpl in Hx. now replace x with 0 by lia.
  - simpl in Hf. apply andb_prop in Hf as [Heven Hodd].
    rewrite Nat2Z.inj_succ, Z.pow_succ_r in Hx by lia.
    pose proof (Z.div_mod x 2 ltac:(lia)) as Hdm.
    pose proof (Z.mod_pos_bound x 2 ltac:(lia)) as Hm.
    assert (Hhalf : 0 <= x / 2 < 2 ^ Z.of_nat n) by lia.
    destruct (Z.eq_dec (x mod 2) 0) as [H0|H1].
    + replace x with (2 * (x / 2)) by lia. now apply (IH _ Heven).
    + replace x with (2 * (x / 2) + 1) by lia. now apply (IH _ Hodd).
Qed.

(** The 16-bit inputs on which [isPowerOfTwo] answers [true] are 0 and the
    powers of two. *)
Lemma isPowerOfTwo_uint16 x :
  0 <= x < 2 ^ 16 ->
  isPowerOfTwo x = (x =? 0) || (x =? 2 ^ Z.log2 x).
Proof.
  intros Hx.
  apply Bool.eqb_prop.
  apply (forall_bits_spec 16
           (fun x => Bool.eqb (isPowerOfTwo x) ((x =? 0) || (x =? 2 ^ Z.log2 x))));
    [vm_compute; reflexivity|exact Hx].
Qed.

Lemma isPowerOfTwo_iff x :
  0 <= x < 2 ^ 16 ->
  isPowerOfTwo x = true <-> x = 0 \/ exists k, 0 <= k /\ x = 2 ^ k.
Proof.
  intros Hx. rewrite isPowerOfTwo_uint16 by exact Hx.
  rewrite orb_true_iff, !Z.eqb_eq. split.
  - intros [H0|Hp]; [now left|]. right. exists (Z.log2 x).
    split; [apply Z.log2_nonneg|exact Hp].
  - intros [H0|(k & Hk & ->)]; [now left|]. right.
    now rewrite Z.log2_pow2.
Qed.

(** C1.  On the spectrum of magnitudes 3, 2, 1 at bins 1, 2, 3 (decreasing
    with the bin number) and a capacity of 3, [resultArray] returns bin 1 in
    all three slots instead of bins 1, 2, 3. *)
Theorem resultArray_decreasing_spectrum :
  map AudioFFTResult.bin (resultArray decreasing8 [blank; blank; blank]) = [1; 1; 1] /\
  fst (InsertSorted
         (map (AudioFFTResult.set_magnitude (F32.of_int (-1000000)))
              [blank; blank; blank])
         (AudioFFTResult.mk 1 (F32.of_int 3) F32.zero)) =
  replicate 3 (AudioFFTResult.mk 1 (F32.of_int 3) F32.zero).
Proof. split; vm_compute; reflexivity. Qed.

(** C2, as stated, fails: with a valid engine and 8 bits per sample, [write]
    of 4 bytes returns 4, not 0. *)
Lemma write_unsupported_depth_returns_count :
  FFTDriver.isValid (p_driver started8_depth8) = true /\
  AudioFFTConfig.bits_per_sample (cfg started8_depth8) = 8 /\
  write clock 10 two_samples started8_depth8 =
    Done (4, log LogError started8_depth8) /\
  4 <> 0.
Proof. repeat split; try reflexivity. lia. Qed.

Lemma write_return_value_witness :
  write clock 10 two_samples (AudioFFTBase.new 8 (TableDriver.of_magnitudes [])) =
    Done (0, AudioFFTBase.new 8 (TableDriver.of_magnitudes [])) /\
  write clock 10 two_samples started8_depth8 =
    Done (4, log LogError started8_depth8) /\
  write clock 10 two_samples started8 =
    Done (4, feed clock (selected_samples Int16 two_samples 2 0) started8).
Proof.
  split; [|split].
  - apply (proj1 (write_return_value clock two_samples
                    (AudioFFTBase.new 8 (TableDriver.of_magnitudes [])))).
    reflexivity.
  - apply (proj1 (proj2 (write_return_value clock two_samples started8_depth8))).
    + reflexivity.
    + intros T. destruct T; simpl; lia.
  - apply (proj2 (proj2 (write_return_value clock two_samples started8))).
    + reflexivity.
    + reflexivity.
    + simpl. lia.
    + split; [simpl; lia|]. left. reflexivity.
    + vm_compute. lia.
Defined.

(** C3, as stated, fails: of the three 16-bit samples 1, 2, 3 written to a
    stereo pipeline, the sample 3 of the incomplete second frame is stored
    in the window, after the sample 1 of the complete frame. *)
Lemma partial_frame_sample_is_stored :
  (let* r := write clock 10 three_samples started8 in
   Done (fst r, TableDriver.input (p_driver (snd r)), current_pos (snd r))) =
  Done (6, [(0, 1); (1, 3)], 2).
Proof. vm_compute. reflexivity. Qed.

Lemma write_partial_frame_witness :
  write clock 10 three_samples started8 =
    Done (6, feed clock (selected_samples Int16 three_samples 2 0) started8) /\
  Z.of_nat (length (selected_samples Int16 three_samples 2 0)) = 1 + 1 /\
  selected_samples Int16 three_samples 2 0 =
    selected_samples Int16 (take 6 three_samples) 2 0.
Proof.
  apply (write_partial_frame clock Int16 three_samples started8 10).
  - reflexivity.
  - reflexivity.
  - simpl. lia.
  - vm_compute. discriminate.
  - split; [simpl; lia|]. right. vm_compute. reflexivity.
  - vm_compute. lia.
Defined.

(** C4, as stated, fails: on a silent spectrum of an 8-sample window, where
    bins 1 to 3 are scanned, [result()] returns bin 0, which is not a
    scanned bin. *)
Lemma result_silent_spectrum :
  1 < Z.quot (len silent8) 2 /\
  AudioFFTResult.bin (result silent8) = 0 /\
  ~ is_dominant silent8 (AudioFFTResult.bin (result silent8)).
Proof.
  split; [vm_compute; reflexivity|]. split; [vm_compute; reflexivity|].
  intros [Hrange _]. vm_compute in Hrange. destruct Hrange as [Hlo _].
  now apply Hlo.
Qed.

Lemma result_dominant_witness : AudioFFTResult.bin (result peak8) = 2.
Proof.
  apply (proj2 (proj2 (proj2 (proj2 (result_dominant peak8))))).
  - vm_compute. split; [discriminate|reflexivity].
  - reflexivity.
  - intros j Hj Hne. change (Z.quot (len peak8) 2) with 4 in Hj.
    assert (Hcases : j = 1 \/ j = 3) by lia.
    destruct Hcases as [-> | ->]; reflexivity.
Defined.



(** C6.  A window length of 0 is not a power of two, yet [begin] does not
    reject it: the engine is started with length 0, [begin] returns [true]
    and a later [write] of 4 bytes consumes all 4. *)
Theorem begin_zero_length_not_rejected :
  (forall k, 0 <= k -> 2 ^ k <> 0) /\
  len empty_window = 0 /\
  fst (begin mono16 empty_window) = true /\
  trace (snd (begin mono16 empty_window)) = [DriverBegin 0] /\
  (let* r := write clock 10 two_samples (snd (begin mono16 empty_window)) in
   Done (fst r)) = Done 4.
Proof.
  split; [intros k Hk; pose proof (Z.pow_pos_nonneg 2 k); lia|].
  repeat split; vm_compute; reflexivity.
Qed.

(** C7, as stated, fails: a failed [begin] on a window of length 1000
    replaces the stored configuration. *)
Lemma begin_failure_overwrites_cfg :
  fst (begin stereo16 thousand) = false /\
  cfg thousand = AudioFFTConfig.default /\
  cfg (snd (begin stereo16 thousand)) = stereo16 /\
  cfg (snd (begin stereo16 thousand)) <> cfg thousand.
Proof. repeat split; try reflexivity. discriminate. Qed.

Lemma begin_failure_state_witness :
  begin stereo16 thousand =
  (false, AudioFFTBase.mk (p_driver thousand) 1000 0 stereo16 0 [LogError]).
Proof. apply (begin_failure_state stereo16 thousand). reflexivity. Defined.

(** C9, as stated, fails: the cursor is not changed by buffering alone.
    After one stereo frame the cursor of a 4-sample window is 1;
    [setAudioInfo] and [begin] put it back to 0, and no transform has
    run. *)
Lemma setAudioInfo_resets_cursor :
  exists st1 : AudioFFTBase.t,
    write clock 10 two_samples started4 = Done (4, st1) /\
    current_pos st1 = 1 /\
    current_pos (setAudioInfo 44100 2 16 st1) = 0 /\
    current_pos (snd (begin stereo16 st1)) = 0 /\
    count_events is_fft (trace (setAudioInfo 44100 2 16 st1)) = 0%nat /\
    count_events is_fft (trace (snd (begin stereo16 st1))) = 0%nat.
Proof. eexists. repeat split; vm_compute; reflexivity. Qed.

Lemma cursor_invariant_witness :
  exists st' : AudioFFTBase.t,
    calls clock 20 session (AudioFFTBase.new 4 (TableDriver.of_magnitudes [])) = Done st' /\
    len st' = 4 /\ 0 <= current_pos st' < 4.
Proof.
  eexists. split; [vm_compute; reflexivity|].
  apply (proj2 (proj2 (proj2 (proj2 (proj2 (proj2 (cursor_invariant clock)))))) 4
           (TableDriver.of_magnitudes []) session 20%nat).
  - lia.
  - vm_compute. reflexivity.
Defined.



End Concrete.

(** * Further properties of the pipeline *)

Section TransformCount.

Import AudioFFTBase AudioFFTNotions.

Context {D : Type} `{FFTDriver.Driver D}.
Variable millis : list Event -> Z.

Implicit Types (data : list byte) (T : SampleType) (v : Z) (vs : list Z).

Local Abbreviation state := (@AudioFFTBase.t D).
Local Abbreviation fft := (AudioFFTBase.fft millis).
Local Abbreviation push_sample := (AudioFFTBase.push_sample millis).
Local Abbreviation feed := (AudioFFTBase.feed millis).
Local Abbreviation write := (AudioFFTBase.write millis).
Local Abbreviation calls := (AudioFFTBase.calls millis).

Lemma push_sample_trace v (st : state) :
  trace (push_sample v st) =
  trace st ++
  DriverSetValue (current_pos st) v ::
  (if len st <=? current_pos st + 1
   then AudioFFTBase.fft_events millis
          (trace st ++ [DriverSetValue (current_pos st) v])
          (current_pos st + 1) (timestamp st)
          (AudioFFTConfig.callback (cfg st))
   else []).
Proof.
  unfold AudioFFTBase.push_sample.
  cbn [len current_pos set_current_pos set_driver].
  destruct (len st <=? current_pos st + 1).
  - rewrite fft_trace. unfold set_current_pos, set_driver.
    cbn [trace cfg current_pos timestamp].
    rewrite <- !app_assoc. reflexivity.
  - reflexivity.
Qed.

Lemma push_sample_timestamp v (st : state) :
  (len st <=? current_pos st + 1) = false ->
  timestamp (push_sample v st) = timestamp st.
Proof.
  intros Hno. unfold AudioFFTBase.push_sample.
  cbn [len current_pos set_current_pos set_driver]. now rewrite Hno.
Qed.

Lemma count_events_cons p e tr :
  count_events p (e :: tr) = ((if p e then 1 else 0) + count_events p tr)%nat.
Proof. unfold count_events. simpl. now destruct (p e). Qed.

(** Transforms, callbacks and stored samples of one pass of the loop. *)
Lemma push_sample_counts v (st : state) :
  let wrap := len st <=? current_pos st + 1 in
  count_events is_fft (trace (push_sample v st)) =
    (count_events is_fft (trace st) + (if wrap then 1 else 0))%nat /\
  count_events is_callback (trace (push_sample v st)) =
    (count_events is_callback (trace st) +
     (if wrap then
        match AudioFFTConfig.callback (cfg st) with Some _ => 1 | None => 0 end
      else 0))%nat /\
  count_events is_setvalue (trace (push_sample v st)) =
    S (count_events is_setvalue (trace st)).
Proof.
  intros wrap. rewrite push_sample_trace. fold wrap.
  rewrite !count_events_app, !count_events_cons.
  unfold AudioFFTBase.fft_events.
  destruct wrap; [destruct (AudioFFTConfig.callback (cfg st))|];
    cbn; repeat split; lia.
Qed.

Lemma wrap_step p n l :
  0 <= p < l -> 0 <= n ->
  let p' := if l <=? p + 1 then 0 else p + 1 in
  (p + (1 + n)) / l = (if l <=? p + 1 then 1 else 0) + (p' + n) / l /\
  (p + (1 + n)) mod l = (p' + n) mod l.
Proof.
  intros Hp Hn p'. unfold p'. destruct (Z.leb_spec l (p + 1)).
  - assert (Hl : p + 1 = l) by lia.
    replace (p + (1 + n)) with (n + 1 * l) by lia.
    rewrite Z.div_add, Z.mod_add by lia.
    change (0 + n) with n. split; [lia|reflexivity].
  - replace (p + (1 + n)) with (p + 1 + n) by lia. split; reflexivity.
Qed.

(** The counting law of the window: pushing [n] samples from cursor [p]
    runs [(p + n) / len] transforms and leaves the cursor at
    [(p + n) mod len]. *)
Lemma feed_counts vs : forall st : state,
  cursor_ok st ->
  let total := current_pos st + Z.of_nat (length vs) in
  current_pos (feed vs st) = total mod len st /\
  Z.of_nat (count_events is_fft (trace (feed vs st))) =
    Z.of_nat (count_events is_fft (trace st)) + total / len st /\
  Z.of_nat (count_events is_callback (trace (feed vs st))) =
    Z.of_nat (count_events is_callback (trace st)) +
    match AudioFFTConfig.callback (cfg st) with
    | Some _ => total / len st
    | None => 0
    end /\
  count_events is_setvalue (trace (feed vs st)) =
    (count_events is_setvalue (trace st) + length vs)%nat.
Proof.
  induction vs as [|v vs IH]; intros st Hok; unfold cursor_ok in Hok.
  - cbn [length Z.of_nat AudioFFTBase.feed fold_left].
    rewrite Z.add_0_r, Z.mod_small, Z.div_small by lia.
    repeat split; try lia. destruct (AudioFFTConfig.callback _); lia.
  - rewrite feed_cons.
    pose proof (push_sample_cursor_ok millis v st Hok) as Hok'.
    specialize (IH _ Hok'). cbv zeta in IH.
    destruct IH as (Hpos & Hfft & Hcb & Hsv).
    destruct (push_sample_counts v st) as (Hf1 & Hc1 & Hs1).
    rewrite push_sample_len, push_sample_cfg in *.
    rewrite push_sample_current_pos in Hpos, Hfft, Hcb.
    destruct (wrap_step (current_pos st) (Z.of_nat (length vs)) (len st) Hok
                ltac:(lia)) as [Hdiv Hmod].
    cbv zeta in Hdiv, Hmod.
    replace (Z.of_nat (length (v :: vs))) with (1 + Z.of_nat (length vs))
      by (cbn [length]; lia).
    cbv zeta. rewrite Hdiv, Hmod, Hpos, Hfft, Hcb, Hsv, Hf1, Hc1, Hs1.
    cbn [length].
    destruct (len st <=? current_pos st + 1);
      destruct (AudioFFTConfig.callback (cfg st)); repeat split; lia.
Qed.

(** X1.  A [write] on a valid engine with a supported bit depth pushes one
    sample per started frame; from cursor [p] and with [n] such frames it
    runs [(p + n) / len] transforms, invokes the registered callback as many
    times (never when none is registered), calls [setValue] [n] times and
    leaves the cursor at [(p + n) mod len]. *)
Theorem write_transform_count T data (st : state) (fuel : nat) :
  let c := AudioFFTConfig.channels (cfg st) in
  let cu := AudioFFTConfig.channel_used (cfg st) in
  let samples := Z.of_nat (length data) / sizeof T in
  let total := current_pos st + Z.of_nat (started_frames samples c) in
  FFTDriver.isValid (p_driver st) = true ->
  AudioFFTConfig.bits_per_sample (cfg st) = 8 * sizeof T ->
  1 <= c ->
  reads_in_bounds samples c cu ->
  cursor_ok st ->
  (started_frames samples c < fuel)%nat ->
  exists st' : state,
    write fuel data st = Done (Z.of_nat (length data), st') /\
    current_pos st' = total mod len st /\
    Z.of_nat (count_events is_fft (trace st')) =
      Z.of_nat (count_events is_fft (trace st)) + total / len st /\
    Z.of_nat (count_events is_callback (trace st')) =
      Z.of_nat (count_events is_callback (trace st)) +
      match AudioFFTConfig.callback (cfg st) with
      | Some _ => total / len st
      | None => 0
      end /\
    count_events is_setvalue (trace st') =
      (count_events is_setvalue (trace st) + started_frames samples c)%nat.
Proof.
  intros c cu samples total Hv Hb Hc Hin Hok Hfuel.
  exists (feed (selected_samples T data c cu) st).
  split; [now apply write_feed|].
  pose proof (feed_counts (selected_samples T data c cu) st Hok) as Hcount.
  cbv zeta in Hcount.
  assert (Hlen : length (selected_samples T data c cu) = started_frames samples c).
  { unfold selected_samples. now rewrite length_map, length_seq. }
  rewrite Hlen in Hcount. exact Hcount.
Qed.

(** X2.  A [write] that does not reach the end of the window only stores
    samples: no transform, no callback, the result time is unchanged and the
    cursor advances by the number of started frames. *)
Theorem write_below_window T data (st : state) (fuel : nat) :
  let c := AudioFFTConfig.channels (cfg st) in
  let cu := AudioFFTConfig.channel_used (cfg st) in
  let samples := Z.of_nat (length data) / sizeof T in
  FFTDriver.isValid (p_driver st) = true ->
  AudioFFTConfig.bits_per_sample (cfg st) = 8 * sizeof T ->
  1 <= c ->
  reads_in_bounds samples c cu ->
  current_pos st + Z.of_nat (started_frames samples c) < len st ->
  (started_frames samples c < fuel)%nat ->
  exists st' : state,
    write fuel data st = Done (Z.of_nat (length data), st') /\
    resultTime st' = resultTime st /\
    current_pos st' = current_pos st + Z.of_nat (started_frames samples c) /\
    trace st' =
      trace st ++ setvalue_events (current_pos st) (selected_samples T data c cu).
Proof.
  intros c cu samples Hv Hb Hc Hin Hbelow Hfuel.
  exists (feed (selected_samples T data c cu) st).
  split; [now apply write_feed|].
  assert (Hlen : length (selected_samples T data c cu) = started_frames samples c).
  { unfold selected_samples. now rewrite length_map, length_seq. }
  destruct (feed_below millis (selected_samples T data c cu) st) as (Hp & Ht & Hts).
  { now rewrite Hlen. }
  rewrite Hlen in Hp. unfold resultTime. auto.
Qed.

(** ** No [setValue] outside the window *)

Lemma push_sample_window_respected v (st : state) :
  window_respected st -> window_respected (push_sample v st).
Proof.
  intros [Hok Hall]. split; [now apply push_sample_cursor_ok|].
  rewrite push_sample_len, push_sample_trace.
  apply Forall_app. split; [exact Hall|].
  constructor; [exact Hok|].
  destruct (len st <=? current_pos st + 1); [|constructor].
  constructor; [exact I|].
  destruct (AudioFFTConfig.callback (cfg st)); repeat constructor.
Qed.

Lemma processSamples_loop_window_respected T data samples :
  forall (fuel : nat) (j : Z) (st st' : state),
    AudioFFTBase.processSamples_loop millis fuel T data samples j st = Done st' ->
    window_respected st -> window_respected st'.
Proof.
  induction fuel as [|fuel IH]; intros j st st' Hrun Hw; [discriminate|].
  cbn [AudioFFTBase.processSamples_loop] in Hrun.
  destruct (j <? samples).
  - destruct (load T data _) as [v|]; [|discriminate].
    apply IH in Hrun; [exact Hrun|now apply push_sample_window_respected].
  - now injection Hrun as <-.
Qed.

Lemma write_window_respected data (st : state) fuel r :
  write fuel data st = Done r -> window_respected st -> window_respected (snd r).
Proof.
  unfold AudioFFTBase.write. rewrite bits_dispatch. intros Hrun Hw.
  assert (Hps : forall T,
    (let* st' := AudioFFTBase.processSamples millis fuel T data st
     in Done (Z.of_nat (length data), st')) = Done r ->
    window_respected (snd r)).
  { intros T HT. unfold AudioFFTBase.processSamples in HT.
    destruct (AudioFFTBase.processSamples_loop _ _ _ _ _ _ _) as [st'| |] eqn:Hloop;
      try discriminate.
    simpl in HT. injection HT as <-. simpl.
    now apply processSamples_loop_window_respected in Hloop. }
  destruct (FFTDriver.isValid _).
  - destruct (_ =? 16); [now apply (Hps Int16)|].
    destruct (_ =? 24); [now apply (Hps Int24)|].
    destruct (_ =? 32); [now apply (Hps Int32)|].
    injection Hrun as <-. destruct Hw as [Hok Hall]. split; [exact Hok|].
    simpl. apply Forall_app. split; [exact Hall|repeat constructor].
  - now injection Hrun as <-.
Qed.

Lemma begin_window_respected info (st : state) :
  window_respected st -> window_respected (snd (begin info st)).
Proof.
  intros [Hok Hall]. unfold cursor_ok in Hok.
  unfold AudioFFTBase.begin. cbn [len set_cfg].
  destruct (isPowerOfTwo (len st)); cbn [negb snd]; split;
    try (unfold cursor_ok; simpl; lia);
    simpl; apply Forall_app; (split; [exact Hall|repeat constructor]).
Qed.

Lemma call_window_respected c fuel (st st' : state) :
  AudioFFTBase.call millis fuel c st = Done st' ->
  window_respected st -> window_respected st'.
Proof.
  destruct c as [info|r ch b| |data]; simpl; intros Hrun Hw.
  - injection Hrun as <-. now apply begin_window_respected.
  - injection Hrun as <-. unfold AudioFFTBase.setAudioInfo.
    apply begin_window_respected. exact Hw.
  - injection Hrun as <-. destruct Hw as [Hok Hall]. split; [exact Hok|].
    simpl. apply Forall_app. split; [exact Hall|repeat constructor].
  - destruct (write fuel data st) as [r| |] eqn:Hwr; try discriminate.
    simpl in Hrun. injection Hrun as <-. now apply (write_window_respected data st fuel).
Qed.

(** X3.  On a pipeline constructed with a window of [len >= 1] samples,
    whatever calls are made, every [setValue] the engine receives addresses
    a position in [0, len). *)
Theorem setvalue_inside_window fft_len (d : D) cs fuel (st' : state) :
  1 <= fft_len < 2 ^ 16 ->
  calls fuel cs (AudioFFTBase.new fft_len d) = Done st' ->
  Forall (in_window fft_len) (trace st').
Proof.
  intros Hlen Hrun.
  assert (Hgen : forall cs (st st' : state),
            calls fuel cs st = Done st' ->
            window_respected st -> window_respected st' /\ len st' = len st).
  { clear. induction cs as [|c cs IH]; intros st st' Hrun Hw.
    - injection Hrun as <-. auto.
    - simpl in Hrun.
      destruct (AudioFFTBase.call millis fuel c st) as [st1| |] eqn:Hc;
        try discriminate.
      simpl in Hrun.
      pose proof (call_window_respected _ _ _ _ Hc Hw) as Hw1.
      destruct (call_cursor_ok millis _ _ _ _ Hc (proj1 Hw)) as [_ Hl1].
      destruct (IH _ _ Hrun Hw1) as [Hw' Hl']. split; [exact Hw'|congruence]. }
  destruct (Hgen cs _ _ Hrun) as [[_ Hall] Hl].
  - split; [|constructor]. unfold cursor_ok. simpl.
    rewrite Z.mod_small by lia. lia.
  - simpl in Hl. rewrite Z.mod_small in Hl by lia. now rewrite Hl in Hall.
Qed.

Lemma feed_zero_length vs (st : state) :
  len st = 0 -> current_pos st = 0 ->
  Forall (in_window 1) (trace st) ->
  current_pos (feed vs st) = 0 /\
  Forall (in_window 1) (trace (feed vs st)) /\
  count_events is_fft (trace (feed vs st)) =
    (count_events is_fft (trace st) + length vs)%nat /\
  count_events is_setvalue (trace (feed vs st)) =
    (count_events is_setvalue (trace st) + length vs)%nat.
Proof.
  revert st. induction vs as [|v vs IH]; intros st Hlen Hpos Hall.
  - simpl. repeat split; auto.
  - rewrite feed_cons.
    destruct (push_sample_counts v st) as (Hf & _ & Hs).
    assert (Hwrap : (len st <=? current_pos st + 1) = true)
      by (apply Z.leb_le; lia).
    rewrite Hwrap in Hf.
    destruct (IH (push_sample v st)) as (Hp' & Hall' & Hf' & Hs').
    + now rewrite push_sample_len.
    + rewrite push_sample_current_pos, Hwrap. reflexivity.
    + rewrite push_sample_trace, Hwrap, Hpos.
      apply Forall_app. split; [exact Hall|].
      constructor; [simpl; lia|]. constructor; [exact I|].
      destruct (AudioFFTConfig.callback (cfg st)); repeat constructor.
    + rewrite Hf', Hs', Hf, Hs. cbn [length]. repeat split; auto; lia.
Qed.

(** X4.  With a window of length 0, which [begin] accepts, [write] stores
    every sample at position 0, outside the empty window, and runs a
    transform for every sample. *)
Theorem zero_length_window T data (st : state) (fuel : nat) :
  let c := AudioFFTConfig.channels (cfg st) in
  let cu := AudioFFTConfig.channel_used (cfg st) in
  let samples := Z.of_nat (length data) / sizeof T in
  FFTDriver.isValid (p_driver st) = true ->
  AudioFFTConfig.bits_per_sample (cfg st) = 8 * sizeof T ->
  1 <= c ->
  reads_in_bounds samples c cu ->
  len st = 0 -> current_pos st = 0 ->
  Forall (in_window 1) (trace st) ->
  (started_frames samples c < fuel)%nat ->
  exists st' : state,
    write fuel data st = Done (Z.of_nat (length data), st') /\
    current_pos st' = 0 /\
    Forall (in_window 1) (trace st') /\
    count_events is_fft (trace st') =
      (count_events is_fft (trace st) + started_frames samples c)%nat /\
    count_events is_setvalue (trace st') =
      (count_events is_setvalue (trace st) + started_frames samples c)%nat.
Proof.
  intros c cu samples Hv Hb Hc Hin Hlen Hpos Hall Hfuel.
  exists (feed (selected_samples T data c cu) st).
  split; [now apply write_feed|].
  assert (Hn : length (selected_samples T data c cu) = started_frames samples c).
  { unfold selected_samples. now rewrite length_map, length_seq. }
  rewrite <- Hn. now apply feed_zero_length.
Qed.

(** ** Calls that do not return a byte count *)

(** X20.  When the whole samples of the buffer end inside a frame before
    the sample of [channel_used], [write] reads past the end of the
    buffer. *)
Theorem write_over_read T data (st : state) (fuel : nat) :
  let c := AudioFFTConfig.channels (cfg st) in
  let cu := AudioFFTConfig.channel_used (cfg st) in
  let samples := Z.of_nat (length data) / sizeof T in
  FFTDriver.isValid (p_driver st) = true ->
  AudioFFTConfig.bits_per_sample (cfg st) = 8 * sizeof T ->
  1 <= c ->
  0 < samples mod c <= cu ->
  cu < c ->
  (started_frames samples c < fuel)%nat ->
  write fuel data st = OverRead.
Proof.
  intros c cu samples Hv Hb Hc Hrem Hcu Hfuel.
  rewrite (write_supported millis T) by assumption.
  now rewrite processSamples_over_read.
Qed.

(** X21.  With a channel count of 0 and at least one sample to read,
    [write] never returns: the loop stays at the first frame, storing the
    same sample again and again. *)
Theorem write_never_returns_without_channels T data (st : state) :
  let cu := AudioFFTConfig.channel_used (cfg st) in
  FFTDriver.isValid (p_driver st) = true ->
  AudioFFTConfig.bits_per_sample (cfg st) = 8 * sizeof T ->
  AudioFFTConfig.channels (cfg st) = 0 ->
  0 <= cu ->
  (cu + 1) * sizeof T <= Z.of_nat (length data) ->
  forall fuel, write fuel data st = OutOfFuel.
Proof.
  intros cu Hv Hb Hc Hcu Hin fuel.
  pose proof (sizeof_pos T) as Hw.
  rewrite (write_supported millis T) by assumption.
  unfold AudioFFTBase.processSamples.
  rewrite (processSamples_loop_stuck millis T data _ cu); try reflexivity;
    try assumption.
  - apply Z.div_str_pos. nia.
  - now apply load_inside.
Qed.

(** ** Writing in chunks *)

Lemma load_app_l T (d1 d2 : list byte) k :
  0 <= k -> (k + 1) * sizeof T <= Z.of_nat (length d1) ->
  load_value T (d1 ++ d2) k = load_value T d1 k.
Proof.
  intros Hk Hin. pose proof (sizeof_pos T) as Hw.
  rewrite !load_value_inside; try lia.
  2: { rewrite length_app. lia. }
  assert (Hkw : 0 <= k * sizeof T) by nia.
  rewrite drop_app_le by lia.
  rewrite take_app_le; [reflexivity|]. rewrite length_drop. lia.
Qed.

Lemma load_app_r T (d1 d2 : list byte) q k :
  0 <= q -> 0 <= k -> Z.of_nat (length d1) = q * sizeof T ->
  load_value T (d1 ++ d2) (q + k) = load_value T d2 k.
Proof.
  intros Hq Hk Hd1. pose proof (sizeof_pos T) as Hw.
  assert (Hkw : 0 <= k * sizeof T) by nia.
  destruct (Z.le_gt_cases ((k + 1) * sizeof T) (Z.of_nat (length d2))) as [Hin|Hout].
  - rewrite !load_value_inside; try lia.
    2: { rewrite length_app. nia. }
    assert (Hsplit : Z.to_nat ((q + k) * sizeof T) =
                     (length d1 + Z.to_nat (k * sizeof T))%nat).
    { replace ((q + k) * sizeof T)
        with (Z.of_nat (length d1) + k * sizeof T) by (rewrite Hd1; ring).
      rewrite Z2Nat.inj_add, Nat2Z.id by lia. reflexivity. }
    rewrite Hsplit, drop_app_add. reflexivity.
  - unfold load_value. rewrite !load_outside; [reflexivity|lia|].
    rewrite length_app, Nat2Z.inj_add, Hd1. nia.
Qed.

Lemma started_frames_add (k : nat) s c :
  1 <= c -> 0 <= s ->
  started_frames (Z.of_nat k * c + s) c = (k + started_frames s c)%nat.
Proof.
  intros Hc Hs. unfold started_frames.
  replace (Z.of_nat k * c + s + c - 1) with (Z.of_nat k * c + (s + c - 1)) by lia.
  rewrite Z.div_add_l by lia.
  rewrite Z2Nat.inj_add, Nat2Z.id; [reflexivity|lia|apply Z.div_pos; lia].
Qed.

Lemma selected_samples_app T (d1 d2 : list byte) (k : nat) c cu :
  1 <= c -> 0 <= cu < c ->
  Z.of_nat (length d1) = Z.of_nat k * c * sizeof T ->
  selected_samples T (d1 ++ d2) c cu =
  selected_samples T d1 c cu ++ selected_samples T d2 c cu.
Proof.
  intros Hc Hcu Hd1. pose proof (sizeof_pos T) as Hw.
  unfold selected_samples.
  assert (Hs2 : 0 <= Z.of_nat (length d2) / sizeof T) by (apply Z.div_pos; lia).
  assert (H1 : Z.of_nat (length d1) / sizeof T = Z.of_nat k * c + 0).
  { rewrite Hd1, Z.div_mul by lia. lia. }
  assert (H12 : Z.of_nat (length (d1 ++ d2)) / sizeof T =
                Z.of_nat k * c + Z.of_nat (length d2) / sizeof T).
  { rewrite length_app, Nat2Z.inj_add, Hd1, Z.div_add_l by lia. reflexivity. }
  rewrite H1, H12, !started_frames_add by lia.
  replace (started_frames 0 c) with 0%nat.
  2: { unfold started_frames. rewrite Z.div_small by lia. reflexivity. }
  rewrite Nat.add_0_r, seq_app, map_app. f_equal.
  - apply map_ext_in. intros i Hi. apply in_seq in Hi.
    apply load_app_l; [nia|]. rewrite Hd1.
    apply Z.mul_le_mono_nonneg_r; [lia|]. nia.
  - assert (Hseq : forall n, seq (0 + k) n = map (Nat.add k) (seq 0 n)).
    { intros n. pose proof (fmap_add_seq k 0 n) as E.
      rewrite Nat.add_0_r in E. symmetry. exact E. }
    rewrite Hseq, map_map.
    apply map_ext. intros i.
    replace (Z.of_nat (k + i) * c + cu)
      with (Z.of_nat k * c + (Z.of_nat i * c + cu)) by lia.
    apply load_app_r; nia.
Qed.

(** X5.  On a valid engine with a supported bit depth and at least one
    channel, take a buffer in two chunks, the first a whole number of frames
    and the reads of the second inside it.  Writing the whole buffer at
    once consumes all of it and stores the samples of both chunks.  Writing
    the chunks one after the other gives the same pipeline and the same
    total when the engine is still valid after the first chunk; when the
    first chunk has left the engine invalid, the second [write] returns 0
    and changes nothing, so the samples of the second chunk are lost. *)
Theorem write_chunks T (d1 d2 : list byte) (k : nat) (st : state) (fuel : nat) :
  let c := AudioFFTConfig.channels (cfg st) in
  let cu := AudioFFTConfig.channel_used (cfg st) in
  let samples2 := Z.of_nat (length d2) / sizeof T in
  let vs2 := selected_samples T d2 c cu in
  FFTDriver.isValid (p_driver st) = true ->
  AudioFFTConfig.bits_per_sample (cfg st) = 8 * sizeof T ->
  1 <= c ->
  Z.of_nat (length d1) = Z.of_nat k * c * sizeof T ->
  reads_in_bounds samples2 c cu ->
  (k + started_frames samples2 c < fuel)%nat ->
  exists st1 : state,
    write fuel d1 st = Done (Z.of_nat (length d1), st1) /\
    write fuel (d1 ++ d2) st =
      Done (Z.of_nat (length d1 + length d2), feed vs2 st1) /\
    write fuel d2 st1 =
      if FFTDriver.isValid (p_driver st1)
      then Done (Z.of_nat (length d2), feed vs2 st1)
      else Done (0, st1).
Proof.
  intros c cu samples2 vs2 Hv Hb Hc Hd1 Hin Hfuel.
  pose proof (sizeof_pos T) as Hw.
  assert (Hs2 : 0 <= samples2) by (apply Z.div_pos; lia).
  assert (H1 : Z.of_nat (length d1) / sizeof T = Z.of_nat k * c).
  { rewrite Hd1. apply Z.div_mul. lia. }
  assert (H12 : Z.of_nat (length (d1 ++ d2)) / sizeof T = Z.of_nat k * c + samples2).
  { rewrite length_app, Nat2Z.inj_add, Hd1, Z.div_add_l by lia. reflexivity. }
  set (st1 := feed (selected_samples T d1 c cu) st) in *.
  exists st1.
  assert (Hcfg1 : cfg st1 = cfg st) by apply feed_cfg.
  split; [|split].
  - apply write_feed; try assumption.
    + rewrite H1. split; [apply Hin|]. left. apply Z.mod_mul. lia.
    + rewrite H1. replace (Z.of_nat k * c) with (Z.of_nat k * c + 0) by lia.
      rewrite started_frames_add by lia.
      assert (Hsf0 : started_frames 0 c = 0%nat).
      { unfold started_frames. rewrite Z.div_small by lia. reflexivity. }
      fold c. lia.
  - rewrite <- length_app.
    rewrite (write_feed millis T (d1 ++ d2) st fuel); try assumption.
    + fold c cu. rewrite (selected_samples_app T d1 d2 k c cu Hc (proj1 Hin) Hd1).
      now rewrite feed_app.
    + rewrite H12. fold c cu. destruct Hin as [Hcu Hrem]. split; [exact Hcu|].
      rewrite Z.add_comm, Z.mod_add by lia. exact Hrem.
    + rewrite H12. fold c. rewrite started_frames_add by lia. exact Hfuel.
  - destruct (FFTDriver.isValid (p_driver st1)) eqn:Hv1.
    + rewrite (write_feed millis T d2 st1 fuel); rewrite ?Hcfg1; try assumption.
      * reflexivity.
      * fold c samples2. lia.
    + now apply write_invalid.
Qed.

(** ** [availableForWrite] and [setAudioInfo] *)

Lemma availableForWrite_bytes T (st : state) :
  AudioFFTConfig.bits_per_sample (cfg st) = 8 * sizeof T ->
  availableForWrite st = len st * sizeof T.
Proof.
  intros Hb. unfold availableForWrite. rewrite Hb, (Z.mul_comm 8).
  rewrite Z.quot_mul by lia. apply Z.mul_comm.
Qed.

(** X6.  A buffer of [availableForWrite()] bytes written at cursor 0 holds
    [len] samples of all channels together: with one channel it fills the
    window and runs exactly one transform; with two or more channels (and
    [len >= 2]) it does not reach the end of the window, no transform runs
    and the result time is unchanged. *)
Theorem availableForWrite_window T data (st : state) (fuel : nat) :
  let c := AudioFFTConfig.channels (cfg st) in
  let cu := AudioFFTConfig.channel_used (cfg st) in
  FFTDriver.isValid (p_driver st) = true ->
  AudioFFTConfig.bits_per_sample (cfg st) = 8 * sizeof T ->
  current_pos st = 0 ->
  1 <= len st ->
  1 <= c ->
  reads_in_bounds (len st) c cu ->
  Z.of_nat (length data) = availableForWrite st ->
  (Z.to_nat (len st) < fuel)%nat ->
  exists st' : state,
    write fuel data st = Done (Z.of_nat (length data), st') /\
    (c = 1 ->
     current_pos st' = 0 /\
     count_events is_fft (trace st') = S (count_events is_fft (trace st))) /\
    (2 <= c -> 2 <= len st ->
     0 < current_pos st' < len st /\
     count_events is_fft (trace st') = count_events is_fft (trace st) /\
     resultTime st' = resultTime st).
Proof.
  intros c cu Hv Hb Hpos Hlen Hc Hin Hdata Hfuel.
  pose proof (sizeof_pos T) as Hw.
  rewrite (availableForWrite_bytes T st Hb) in Hdata.
  assert (Hsamples : Z.of_nat (length data) / sizeof T = len st).
  { rewrite Hdata. apply Z.div_mul. lia. }
  pose proof (started_frames_split (len st) c Hc ltac:(lia)) as Hn.
  pose proof (Z.div_mod (len st) c ltac:(lia)) as Hdm.
  pose proof (Z.mod_pos_bound (len st) c ltac:(lia)) as Hm.
  assert (Hq : 0 <= len st / c) by (apply Z.div_pos; lia).
  assert (Hnle : Z.of_nat (started_frames (len st) c) <= len st).
  { rewrite Hn. destruct (Z.eqb_spec (len st mod c) 0); nia. }
  set (vs := selected_samples T data c cu).
  assert (Hvs : length vs = started_frames (len st) c).
  { unfold vs, selected_samples. now rewrite length_map, length_seq, Hsamples. }
  exists (feed vs st). split.
  { apply write_feed; try assumption; rewrite Hsamples; fold c; [exact Hin|lia]. }
  assert (Hok : cursor_ok st) by (unfold cursor_ok; lia).
  destruct (feed_counts vs st Hok) as (Hp' & Hf' & _ & _).
  rewrite Hvs, Hpos, Z.add_0_l in Hp', Hf'.
  split.
  - intros H1.
    assert (Hfull : Z.of_nat (started_frames (len st) c) = len st).
    { rewrite Hn, H1, Z.mod_1_r, Z.div_1_r. simpl. lia. }
    rewrite Hfull in Hp', Hf'.
    rewrite Z.mod_same in Hp' by lia. rewrite Z.div_same in Hf' by lia.
    split; [exact Hp'|lia].
  - intros H2 Hl2.
    assert (Hlt : 0 < Z.of_nat (started_frames (len st) c) < len st).
    { rewrite Hn. destruct (Z.eqb_spec (len st mod c) 0); nia. }
    rewrite Z.mod_small in Hp' by lia. rewrite Z.div_small in Hf' by lia.
    split; [lia|]. split; [lia|].
    destruct (feed_below millis vs st) as (_ & _ & Hts); [rewrite Hvs; lia|].
    exact Hts.
Qed.

(** X7.  [setAudioInfo] always replaces the sample rate, the channel count
    and the bits per sample, and keeps the callback, the channel used and
    the window length.  When the length fails the power-of-two test it logs
    an error and leaves the engine and the cursor as they are.  When the
    length passes, the engine is started again with [begin(len)] and the
    cursor goes to 0, so that the samples buffered before are dropped; if
    then [len >= 1], the engine reports valid, the new depth is supported,
    there is at least one channel and the reads stay inside the buffer, a
    following [write] of [n] started frames runs [n / len] transforms and
    leaves the cursor at [n mod len], wherever the cursor was before. *)
Theorem setAudioInfo_restarts_window r c b T data (st : state) (fuel : nat) :
  let st1 := setAudioInfo r c b st in
  let cu := AudioFFTConfig.channel_used (cfg st) in
  let n := started_frames (Z.of_nat (length data) / sizeof T) c in
  cfg st1 = AudioFFTConfig.mk r c b (AudioFFTConfig.callback (cfg st)) cu /\
  len st1 = len st /\
  (isPowerOfTwo (len st) = false ->
   p_driver st1 = p_driver st /\
   current_pos st1 = current_pos st /\
   trace st1 = trace st ++ [LogError]) /\
  (isPowerOfTwo (len st) = true ->
   p_driver st1 = FFTDriver.begin (len st) (p_driver st) /\
   current_pos st1 = 0 /\
   trace st1 = trace st ++ [DriverBegin (len st)] /\
   (1 <= len st ->
    FFTDriver.isValid (p_driver st1) = true ->
    b = 8 * sizeof T ->
    1 <= c ->
    reads_in_bounds (Z.of_nat (length data) / sizeof T) c cu ->
    (n < fuel)%nat ->
    exists st2 : state,
      write fuel data st1 = Done (Z.of_nat (length data), st2) /\
      current_pos st2 = Z.of_nat n mod len st /\
      Z.of_nat (count_events is_fft (trace st2)) =
        Z.of_nat (count_events is_fft (trace st)) + Z.of_nat n / len st)).
Proof.
  intros st1 cu n.
  destruct (isPowerOfTwo (len st)) eqn:Hp.
  - assert (Hst1 : st1 =
      AudioFFTBase.mk (FFTDriver.begin (len st) (p_driver st)) (len st) 0
        (AudioFFTConfig.mk r c b (AudioFFTConfig.callback (cfg st)) cu)
        (timestamp st) (trace st ++ [DriverBegin (len st)])).
    { unfold st1, setAudioInfo. cbn [cfg set_cfg].
      rewrite begin_accepted by exact Hp. reflexivity. }
    split; [now rewrite Hst1|]. split; [now rewrite Hst1|].
    split; [discriminate|]. intros _.
    split; [now rewrite Hst1|]. split; [now rewrite Hst1|].
    split; [now rewrite Hst1|].
    intros Hlen Hv Hb Hc Hin Hfuel.
    set (vs := selected_samples T data c cu).
    assert (Hvs : length vs = n).
    { unfold vs, selected_samples. now rewrite length_map, length_seq. }
    exists (feed vs st1). split.
    { rewrite (write_feed millis T data st1 fuel); rewrite ?Hst1; cbn [cfg
        AudioFFTConfig.channels AudioFFTConfig.channel_used
        AudioFFTConfig.bits_per_sample]; try assumption; try reflexivity.
      now rewrite <- Hst1. }
    assert (Hok : cursor_ok st1) by (rewrite Hst1; unfold cursor_ok; simpl; lia).
    destruct (feed_counts vs st1 Hok) as (Hp' & Hf' & _ & _).
    rewrite Hvs in Hp', Hf'.
    replace (current_pos st1) with 0 in Hp', Hf' by now rewrite Hst1.
    replace (len st1) with (len st) in Hp', Hf' by now rewrite Hst1.
    rewrite Z.add_0_l in Hp', Hf'. split; [exact Hp'|].
    rewrite Hf'. f_equal. rewrite Hst1. cbn [trace].
    rewrite count_events_app. cbn. lia.
  - assert (Hst1 : st1 =
      log LogError
        (set_cfg (AudioFFTConfig.mk r c b (AudioFFTConfig.callback (cfg st)) cu)
                 st)).
    { unfold st1, setAudioInfo. cbn [cfg set_cfg].
      rewrite begin_rejected by exact Hp. reflexivity. }
    split; [now rewrite Hst1|]. split; [now rewrite Hst1|].
    split; [|discriminate]. intros _. now rewrite Hst1.
Qed.

(** X8.  On a pipeline constructed with a 16-bit length, [begin] returns
    [true] exactly when the length is 0 or a power of two and the engine
    reports valid after its own [begin]. *)
Theorem begin_accepts_iff info fft_len (d : D) :
  0 <= fft_len < 2 ^ 16 ->
  fst (begin info (AudioFFTBase.new fft_len d)) = true <->
  (fft_len = 0 \/ exists k, 0 <= k /\ fft_len = 2 ^ k) /\
  FFTDriver.isValid (FFTDriver.begin fft_len d) = true.
Proof.
  intros Hlen. rewrite <- (isPowerOfTwo_iff fft_len Hlen).
  unfold AudioFFTBase.begin. cbn [len set_cfg AudioFFTBase.new].
  rewrite Z.mod_small by lia.
  destruct (isPowerOfTwo fft_len); cbn [negb fst]; simpl.
  - tauto.
  - split; [discriminate|]. intros [Hf _]. discriminate.
Qed.

End TransformCount.

(** * Further properties of the result extraction *)

Lemma gt_asym a b : F32.gt a b = true -> F32.gt b a = false.
Proof.
  intros Hab. destruct (F32.gt b a) eqn:Hba; [|reflexivity].
  pose proof (gt_trans _ _ _ Hab Hba) as Haa. now rewrite gt_irrefl in Haa.
Qed.

Section ResultExtras.

Import AudioFFTBase AudioFFTNotions.

Context {D : Type} `{FFTDriver.Driver D}.

Local Abbreviation state := (@AudioFFTBase.t D).

(** X9.  Whatever magnitudes the engine reports (negative, infinite, NaN),
    the magnitude [result()] returns is never a NaN and never below zero,
    the bin is 0 or a scanned bin, and the bin is 0 exactly when the
    magnitude returned is the initial 0. *)
Theorem result_magnitude_not_negative (st : state) :
  let r := result st in
  F32.is_nan (AudioFFTResult.magnitude r) = false /\
  F32.gt F32.zero (AudioFFTResult.magnitude r) = false /\
  (AudioFFTResult.bin r = 0 \/ 1 <= AudioFFTResult.bin r < Z.quot (len st) 2) /\
  (AudioFFTResult.bin r = 0 <-> AudioFFTResult.magnitude r = F32.zero).
Proof.
  intros r. unfold r. rewrite result_scan. cbv zeta.
  cbn [AudioFFTResult.bin AudioFFTResult.magnitude].
  pose proof (scan_spec st (Z.to_nat (Z.quot (len st) 2) - 1)) as Hscan.
  cbv zeta in Hscan. destruct Hscan as [_ Hcase].
  destruct Hcase as [[Hb Hm]|(Hb & Hm & Hpos & _)].
  - rewrite Hb, Hm. repeat split; auto.
  - destruct (gt_not_nan _ _ Hpos) as [Hnan _].
    split; [exact Hnan|]. split; [now apply gt_asym|]. split; [right; lia|].
    split; [lia|]. intros Hz. rewrite Hz in Hpos. discriminate.
Qed.

Lemma strongest_cons c cands e :
  strongest (c :: cands) e =
  strongest cands (if F32.gt (AudioFFTResult.magnitude c)
                             (AudioFFTResult.magnitude e) then c else e).
Proof. reflexivity. Qed.

Lemma strongest_spec cands : forall e,
  let s := strongest cands e in
  (s = e \/
   In s cands /\
   F32.gt (AudioFFTResult.magnitude s) (AudioFFTResult.magnitude e) = true) /\
  Forall (fun c => F32.gt (AudioFFTResult.magnitude c)
                          (AudioFFTResult.magnitude s) = false) cands.
Proof.
  induction cands as [|c cands IH]; intros e; [split; [now left|constructor]|].
  cbv zeta. rewrite strongest_cons.
  destruct (F32.gt (AudioFFTResult.magnitude c) (AudioFFTResult.magnitude e))
    eqn:Hce.
  - destruct (IH c) as [[Hs|[Hin Hgt]] Hall]; cbv zeta in *.
    + rewrite Hs in *. split; [right; split; [now left|exact Hce]|].
      constructor; [apply gt_irrefl|exact Hall].
    + split; [right; split; [now right|exact (gt_trans _ _ _ Hgt Hce)]|].
      constructor; [now apply gt_asym|exact Hall].
  - destruct (IH e) as [[Hs|[Hin Hgt]] Hall]; cbv zeta in *.
    + rewrite Hs in *. split; [now left|]. constructor; [exact Hce|exact Hall].
    + split; [right; split; [now right|exact Hgt]|].
      constructor; [|exact Hall].
      destruct (F32.gt (AudioFFTResult.magnitude c)
                       (AudioFFTResult.magnitude (strongest cands e))) eqn:Hcs;
        [|reflexivity].
      now rewrite (gt_trans _ _ _ Hcs Hgt) in Hce.
Qed.

(** X10.  Starting from an array whose [N] slots hold one and the same
    result [e], any sequence of calls of [InsertSorted] leaves [N] copies of
    a single result: [e] itself when no candidate is above it, and otherwise
    a candidate that is above [e] and that no candidate exceeds.  An array
    filled in this way never holds two different bins. *)
Theorem InsertSorted_keeps_one_result
    (cands : list AudioFFTResult.t) (e : AudioFFTResult.t) (N : nat) :
  let s := strongest cands e in
  insert_each cands (replicate N e) = replicate N s /\
  (s = e \/
   In s cands /\
   F32.gt (AudioFFTResult.magnitude s) (AudioFFTResult.magnitude e) = true) /\
  Forall (fun c => F32.gt (AudioFFTResult.magnitude c)
                          (AudioFFTResult.magnitude s) = false) cands.
Proof.
  split; [|apply strongest_spec].
  revert e. induction cands as [|c cands IH]; intros e; [reflexivity|].
  unfold insert_each in *. cbn [fold_left]. rewrite strongest_cons.
  rewrite (InsertSorted_uniform (AudioFFTResult.magnitude e)).
  2: { apply List.Forall_forall. intros x Hx.
       apply list_elem_of_In, elem_of_replicate in Hx as [-> _]. reflexivity. }
  rewrite length_replicate.
  destruct (F32.gt (AudioFFTResult.magnitude c) (AudioFFTResult.magnitude e));
    apply IH.
Qed.

(** X12.  [InsertSorted] always returns [false] and keeps the length of the
    array.  A candidate that is above no slot leaves the array as it is; a
    candidate above the first slot fills the whole array; in general the
    slots before the first one below the candidate are kept and all the
    others receive the candidate. *)
Theorem InsertSorted_behaviour (l : list AudioFFTResult.t) (tmp : AudioFFTResult.t) :
  let m := AudioFFTResult.magnitude tmp in
  let j := first_below m l in
  InsertSorted l tmp = (take j l ++ replicate (length l - j) tmp, false) /\
  length (fst (InsertSorted l tmp)) = length l /\
  (Forall (fun x => F32.gt m (AudioFFTResult.magnitude x) = false) l ->
   fst (InsertSorted l tmp) = l) /\
  (forall x l', l = x :: l' -> F32.gt m (AudioFFTResult.magnitude x) = true ->
   fst (InsertSorted l tmp) = replicate (length l) tmp).
Proof.
  intros m j. pose proof (InsertSorted_spec l tmp) as Hspec. cbv zeta in Hspec.
  fold m j in Hspec. rewrite Hspec. cbn [fst].
  pose proof (first_below_le m l) as Hle. fold j in Hle.
  split; [reflexivity|]. split; [|split].
  - rewrite length_app, length_take, length_replicate. lia.
  - intros Hall.
    assert (Hj : j = length l).
    { unfold j. clear -Hall. induction Hall as [|x l Hx _ IH]; [reflexivity|].
      simpl. rewrite Hx. now rewrite IH. }
    rewrite Hj, Nat.sub_diag, firstn_all. apply app_nil_r.
  - intros x l' -> Hx. unfold j. simpl first_below. fold m. rewrite Hx.
    now rewrite Nat.sub_0_r.
Qed.

Lemma round_to_int_exact (x : F32.float) z :
  F32.to_Z x = Some z -> round_to_int x = Some z.
Proof.
  destruct x as [s|s| |s m e]; simpl; try discriminate; [intros Hz; exact Hz|].
  destruct (Z.leb_spec 0 e) as [Hpos|Hneg]; [intros Hz; exact Hz|].
  destruct (Z.eqb_spec (Zpos m mod 2 ^ (- e)) 0) as [Hmod|]; [|discriminate].
  intros Hz. injection Hz as <-. f_equal.
  assert (Hp : 0 < 2 ^ (- e)) by (apply Z.pow_pos_nonneg; lia).
  assert (Hhalf : 0 <= 2 ^ (- e - 1) < 2 ^ (- e)).
  { split; [apply Z.pow_nonneg; lia|]. apply Z.pow_lt_mono_r; lia. }
  pose proof (Z.div_mod (Zpos m) (2 ^ (- e)) ltac:(lia)) as Hdm.
  rewrite Hmod, Z.add_0_r in Hdm.
  assert (Hsame : (Zpos m + 2 ^ (- e - 1)) / 2 ^ (- e) = Zpos m / 2 ^ (- e)).
  { rewrite Hdm at 1. rewrite Z.mul_comm, Z.div_add_l by lia.
    rewrite (Z.div_small (2 ^ (- e - 1))) by lia. lia. }
  now rewrite Hsame.
Qed.

(** X13.  On a power-of-two window with a sample rate below 2^24,
    [frequncyAsInt] of the result of [result()] is exactly
    [bin * sample_rate / len] whenever the window length divides the
    product. *)
Theorem frequncyAsInt_of_result (st : state) (k : Z) :
  let r := result st in
  let rate := AudioFFTConfig.sample_rate (cfg st) in
  0 <= k < 16 -> len st = 2 ^ k ->
  0 <= rate < 2 ^ 24 ->
  (len st | AudioFFTResult.bin r * rate) ->
  frequncyAsInt r = Some (AudioFFTResult.bin r * rate / len st).
Proof.
  intros r rate Hk Hlen Hrate Hdiv.
  assert (Hpk : 0 < 2 ^ k) by (apply Z.pow_pos_nonneg; lia).
  assert (Hbin : 0 <= AudioFFTResult.bin r < len st).
  { pose proof (scan_spec st (Z.to_nat (Z.quot (len st) 2) - 1)) as Hscan.
    cbv zeta in Hscan. destruct Hscan as [_ Hcase].
    unfold r. rewrite result_scan. cbv zeta. cbn [AudioFFTResult.bin].
    assert (Hq : Z.quot (len st) 2 <= len st).
    { rewrite Z.quot_div_nonneg by lia.
      pose proof (Z.div_mod (len st) 2 ltac:(lia)).
      pose proof (Z.mod_pos_bound (len st) 2 ltac:(lia)). lia. }
    destruct Hcase as [[Hb _]|(Hb & _)]; lia. }
  unfold frequncyAsInt. apply round_to_int_exact.
  unfold r in *. rewrite result_scan in *. cbv zeta in *.
  cbn [AudioFFTResult.frequency AudioFFTResult.bin] in *.
  now apply (frequency_exact_power_of_two st _ k).
Qed.

End ResultExtras.

(** * Properties of [AudioSourceURL] *)

Section AudioSourceURLFacts.

Import AudioSourceURL.

Implicit Types (st : AudioSourceURL.t) (cs : list Call).

Lemma url_at_inside st i :
  wf st -> 0 <= i < max st -> exists url, url_at st i = Some url.
Proof.
  intros [Hmax _] Hi. unfold url_at.
  destruct (Z.ltb_spec i 0); [lia|].
  apply lookup_lt_is_Some_2. lia.
Qed.

Lemma url_at_outside st i :
  wf st -> i < 0 \/ max st <= i -> url_at st i = None.
Proof.
  intros [Hmax _] Hi. unfold url_at.
  destruct (Z.ltb_spec i 0); [reflexivity|].
  apply lookup_ge_None_2. lia.
Qed.

Lemma selectStream_spec idx st :
  wf st ->
  let p := Z.min (Z.max idx 0) (max st - 1) in
  exists url,
    url_at st p = Some url /\
    selectStream idx st = Some (open url (set_pos p st)).
Proof.
  intros Hwf p. pose proof Hwf as [Hmax Hone].
  assert (Hp : (if max st <=? (if idx <? 0 then 0 else idx)
                then max st - 1 else if idx <? 0 then 0 else idx) = p).
  { unfold p. destruct (Z.ltb_spec idx 0);
      [destruct (Z.leb_spec (max st) 0)|destruct (Z.leb_spec (max st) idx)]; lia. }
  destruct (url_at_inside st p Hwf ltac:(lia)) as [url Hurl].
  exists url. split; [exact Hurl|].
  unfold selectStream. cbv zeta. rewrite Hp.
  change (url_at (set_pos p st) p) with (url_at st p). now rewrite Hurl.
Qed.

(** X14.  [selectStream(idx)] never reads outside the array: the index is
    clamped into [0, max - 1], the URL at the clamped index is opened (after
    the stream open so far has been ended) and [index()] and [toStr()] then
    name that URL. *)
Theorem selectStream_clamps idx st :
  wf st ->
  exists st' url,
    selectStream idx st = Some st' /\
    index st' = Z.min (Z.max idx 0) (max st - 1) /\
    0 <= index st' < max st /\
    toStr st' = Some url /\
    stream st' = stream st ++ (if started st then [StreamEnd] else [])
                           ++ [StreamBegin url (mime st)] /\
    started st' = true.
Proof.
  intros Hwf. destruct (selectStream_spec idx st Hwf) as (url & Hurl & Hsel).
  destruct Hwf as [Hmax Hone].
  exists (open url (set_pos (Z.min (Z.max idx 0) (max st - 1)) st)), url.
  split; [exact Hsel|]. split; [reflexivity|].
  split; [unfold index; simpl; lia|]. split; [exact Hurl|]. split; reflexivity.
Qed.

Lemma selectStream_inside p st :
  wf st -> 0 <= p < max st ->
  exists url, url_at st p = Some url /\
              selectStream p st = Some (open url (set_pos p st)).
Proof.
  intros Hwf Hp. destruct (selectStream_spec p st Hwf) as (url & Hurl & Hsel).
  replace (Z.min (Z.max p 0) (max st - 1)) with p in * by lia.
  now exists url.
Qed.

Lemma nextStream_spec offset st :
  wf st ->
  let p := if (0 <=? pos st + offset) && (pos st + offset <? max st)
           then pos st + offset else 0 in
  exists url, url_at st p = Some url /\
              nextStream offset st = Some (open url (set_pos p st)).
Proof.
  intros Hwf p. pose proof Hwf as [Hmax Hone].
  assert (Hp : (if (pos st + offset <? 0) || (max st <=? pos st + offset)
                then 0 else pos st + offset) = p).
  { unfold p. destruct (Z.ltb_spec (pos st + offset) 0);
      destruct (Z.leb_spec (max st) (pos st + offset));
      destruct (Z.leb_spec 0 (pos st + offset));
      destruct (Z.ltb_spec (pos st + offset) (max st)); simpl; lia. }
  assert (Hin : 0 <= p < max st).
  { unfold p. destruct (Z.leb_spec 0 (pos st + offset));
      destruct (Z.ltb_spec (pos st + offset) (max st)); simpl; lia. }
  unfold nextStream. cbv zeta. rewrite Hp.
  destruct (selectStream_inside p (set_pos p st)) as (url & Hurl & Hsel);
    [exact Hwf|exact Hin|].
  exists url. split; [exact Hurl|exact Hsel].
Qed.

Lemma previousStream_spec offset st :
  wf st ->
  let p := if (0 <=? pos st - offset) && (pos st - offset <? max st)
           then pos st - offset else max st - 1 in
  exists url, url_at st p = Some url /\
              previousStream offset st = Some (open url (set_pos p st)).
Proof.
  intros Hwf p. pose proof Hwf as [Hmax Hone].
  assert (Hp : (if (pos st - offset <? 0) || (max st <=? pos st - offset)
                then max st - 1 else pos st - offset) = p).
  { unfold p. destruct (Z.ltb_spec (pos st - offset) 0);
      destruct (Z.leb_spec (max st) (pos st - offset));
      destruct (Z.leb_spec 0 (pos st - offset));
      destruct (Z.ltb_spec (pos st - offset) (max st)); simpl; lia. }
  assert (Hin : 0 <= p < max st).
  { unfold p. destruct (Z.leb_spec 0 (pos st - offset));
      destruct (Z.ltb_spec (pos st - offset) (max st)); simpl; lia. }
  unfold previousStream. cbv zeta. rewrite Hp.
  destruct (selectStream_inside p (set_pos p st)) as (url & Hurl & Hsel);
    [exact Hwf|exact Hin|].
  exists url. split; [exact Hurl|exact Hsel].
Qed.


Lemma call_total c st :
  wf st ->
  exists st', call c st = Some st' /\ wf st' /\
    urlArray st' = urlArray st /\ max st' = max st /\ mime st' = mime st /\
    match c with
    | CallSelectPath _ | CallSetTimeout _ => pos st' = pos st
    | _ => 0 <= pos st' < max st
    end.
Proof.
  intros Hwf. pose proof Hwf as [Hmax Hone].
  destruct c as [|idx|offset|offset|path|ms]; simpl.
  - eexists. split; [reflexivity|]. repeat split; try assumption; simpl; lia.
  - destruct (selectStream_spec idx st Hwf) as (url & _ & ->).
    eexists. split; [reflexivity|]. repeat split; try assumption; simpl; lia.
  - destruct (nextStream_spec offset st Hwf) as (url & _ & ->).
    eexists. split; [reflexivity|]. repeat split; try assumption; simpl;
      destruct (Z.leb_spec 0 (pos st + offset));
      destruct (Z.ltb_spec (pos st + offset) (max st)); simpl; lia.
  - destruct (previousStream_spec offset st Hwf) as (url & _ & ->).
    eexists. split; [reflexivity|]. repeat split; try assumption; simpl;
      destruct (Z.leb_spec 0 (pos st - offset));
      destruct (Z.ltb_spec (pos st - offset) (max st)); simpl; lia.
  - eexists. split; [reflexivity|]. repeat split; assumption.
  - eexists. split; [reflexivity|]. repeat split; assumption.
Qed.

(** X16.  On a source built over a non-empty array, no sequence of calls
    reads outside the array, and once the position has been inside the
    array, or one of [begin], [selectStream(int)], [nextStream] and
    [previousStream] has been called, [index()] is inside the array and
    [toStr()] names a URL. *)
Theorem calls_stay_inside_array cs : forall st,
  wf st ->
  exists st',
    calls cs st = Some st' /\ max st' = max st /\
    (pos_ok st \/
     (exists c, In c cs /\ (forall path, c <> CallSelectPath path) /\
                (forall ms, c <> CallSetTimeout ms)) ->
     0 <= index st' < max st /\ is_Some (toStr st')).
Proof.
  induction cs as [|c cs IH]; intros st Hwf.
  - exists st. split; [reflexivity|]. split; [reflexivity|].
    intros [Hok|(c & [] & _)]. split; [exact Hok|].
    destruct (url_at_inside st (pos st) Hwf Hok) as [url Hurl].
    exists url. exact Hurl.
  - destruct (call_total c st Hwf) as (st1 & Hc & Hwf1 & _ & Hmax1 & _ & Hpos1).
    destruct (IH st1 Hwf1) as (st' & Hrun & Hmax' & Hin).
    exists st'. simpl. rewrite Hc. split; [exact Hrun|].
    split; [congruence|]. rewrite <- Hmax1. intros Hsome. apply Hin.
    destruct Hsome as [Hok|(c' & [<-|Hc'] & Hnp & Hnt)].
    + left. unfold pos_ok in *.
      destruct c; rewrite ?Hpos1, Hmax1; try exact Hok; exact Hpos1.
    + left. unfold pos_ok. rewrite Hmax1.
      destruct c; try exact Hpos1; [now destruct (Hnp path)|now destruct (Hnt millisec)].
    + right. exists c'. auto.
Qed.

Lemma replay_app opened evs1 evs2 :
  replay opened (evs1 ++ evs2) =
  match replay opened evs1 with
  | Some o => replay o evs2
  | None => None
  end.
Proof.
  revert opened. induction evs1 as [|e evs1 IH]; intros opened; [reflexivity|].
  destruct e; simpl; destruct opened; auto.
Qed.

Lemma open_protocol url st :
  replay false (stream st) = Some (started st) ->
  replay false (stream (open url st)) = Some (started (open url st)).
Proof.
  intros Hst. unfold open. cbn [stream started].
  rewrite replay_app, Hst. now destruct (started st).
Qed.

Lemma call_protocol c st st' :
  call c st = Some st' ->
  replay false (stream st) = Some (started st) ->
  replay false (stream st') = Some (started st').
Proof.
  destruct c as [|idx|offset|offset|path|ms]; simpl; intros Hc Hst.
  - injection Hc as <-. exact Hst.
  - unfold selectStream in Hc. cbv zeta in Hc.
    destruct (url_at _ _); [|discriminate]. injection Hc as <-.
    now apply open_protocol.
  - unfold nextStream, selectStream in Hc. cbv zeta in Hc.
    destruct (url_at _ _); [|discriminate]. injection Hc as <-.
    now apply open_protocol.
  - unfold previousStream, selectStream in Hc. cbv zeta in Hc.
    destruct (url_at _ _); [|discriminate]. injection Hc as <-.
    now apply open_protocol.
  - injection Hc as <-. now apply open_protocol.
  - injection Hc as <-. unfold setTimeout. cbn [stream started].
    rewrite replay_app, Hst. reflexivity.
Qed.

(** X17.  Whatever calls are made on a newly built source, the URL stream
    is driven in order: it is never opened twice without being ended in
    between and never ended while it is not open, and it is open at the end
    exactly when [started] is set. *)
Theorem stream_protocol urls mimetype startPos cs st' :
  calls cs (AudioSourceURL.new urls mimetype startPos) = Some st' ->
  replay false (stream st') = Some (started st').
Proof.
  assert (Hgen : forall cs st st',
            calls cs st = Some st' ->
            replay false (stream st) = Some (started st) ->
            replay false (stream st') = Some (started st')).
  { clear. induction cs as [|c cs IH]; intros st st' Hrun Hst.
    - now injection Hrun as <-.
    - simpl in Hrun. destruct (call c st) as [st1|] eqn:Hc; [|discriminate].
      apply (IH st1 st' Hrun). now apply (call_protocol c st). }
  intros Hrun. apply (Hgen cs _ _ Hrun). reflexivity.
Qed.

Lemma opened_urls_app evs1 evs2 :
  opened_urls (evs1 ++ evs2) = opened_urls evs1 ++ opened_urls evs2.
Proof. unfold opened_urls. apply flat_map_app. Qed.

Lemma opened_urls_open url st :
  opened_urls (stream (open url st)) = opened_urls (stream st) ++ [url].
Proof.
  unfold open. cbn [stream]. rewrite !opened_urls_app.
  now destruct (started st).
Qed.

(** X18.  From a position inside the array, [k] calls of [nextStream(1)]
    open the next [k] URLs in array order, going back to the first after the
    last, and leave the position at [(pos + k) mod max]: after [max] calls
    the source is back where it was. *)
Theorem nextStream_cycles (k : nat) : forall st,
  wf st -> pos_ok st ->
  exists st',
    calls (replicate k (CallNext 1)) st = Some st' /\
    index st' = (pos st + Z.of_nat k) mod max st /\
    (Z.of_nat k = max st -> index st' = pos st) /\
    map Some (opened_urls (stream st')) =
      map Some (opened_urls (stream st)) ++
      map (fun i => url_at st ((pos st + Z.of_nat (S i)) mod max st)) (seq 0 k).
Proof.
  induction k as [|k IH]; intros st Hwf Hok; unfold pos_ok in Hok.
  - exists st. split; [reflexivity|]. rewrite Z.add_0_r, Z.mod_small by lia.
    split; [reflexivity|]. split; [reflexivity|]. simpl. now rewrite app_nil_r.
  - destruct (nextStream_spec 1 st Hwf) as (url & Hurl & Hnext).
    cbv zeta in Hurl, Hnext.
    assert (Hp1 : (if (0 <=? pos st + 1) && (pos st + 1 <? max st)
                   then pos st + 1 else 0) = (pos st + 1) mod max st).
    { destruct (Z.leb_spec 0 (pos st + 1)); [|lia].
      destruct (Z.ltb_spec (pos st + 1) (max st)); simpl.
      - now rewrite Z.mod_small by lia.
      - replace (pos st + 1) with (max st) by lia. now rewrite Z.mod_same by lia. }
    rewrite Hp1 in Hurl, Hnext.
    set (p1 := (pos st + 1) mod max st) in *.
    set (st1 := open url (set_pos p1 st)) in *.
    assert (Hp1in : 0 <= p1 < max st) by (apply Z.mod_pos_bound; lia).
    destruct (IH st1) as (st' & Hrun & Hidx & _ & Hurls); [exact Hwf|exact Hp1in|].
    exists st'. cbn [replicate calls call]. rewrite Hnext.
    split; [exact Hrun|].
    assert (Hidx' : index st' = (pos st + Z.of_nat (S k)) mod max st).
    { rewrite Hidx. change (pos st1) with p1. change (max st1) with (max st).
      unfold p1. rewrite Z.add_mod_idemp_l by lia. f_equal. lia. }
    split; [exact Hidx'|]. split.
    { intros Hk. rewrite Hidx', Hk.
      replace (pos st + max st) with (pos st + 1 * max st) by lia.
      rewrite Z.mod_add by lia. apply Z.mod_small. lia. }
    rewrite Hurls. unfold st1 at 1. rewrite opened_urls_open, map_app.
    rewrite <- app_assoc. f_equal. cbn [seq map].
    replace (Z.of_nat 1) with 1 by reflexivity. fold p1. rewrite <- Hurl.
    f_equal. rewrite <- seq_shift, map_map. apply map_ext. intros i.
    change (pos st1) with p1. change (max st1) with (max st).
    change (url_at st1) with (url_at st). f_equal.
    unfold p1. rewrite Z.add_mod_idemp_l by lia. f_equal. lia.
Qed.

(** X19.  A new source stands one before its start position, so that the
    first [nextStream(1)] opens the URL at the start position; built with
    start position 0, [toStr()] reads before the array until a stream has
    been selected.  After [begin()], which moves to index 0, [nextStream(1)]
    opens the URL at index 1 (index 0 when there is only one URL). *)
Theorem constructor_start_position urls mimetype startPos :
  urls <> [] ->
  let src := AudioSourceURL.new urls mimetype startPos in
  index src = startPos - 1 /\
  (startPos = 0 -> toStr src = None) /\
  (0 <= startPos < Z.of_nat (length urls) ->
   exists st' url,
     nextStream 1 src = Some st' /\ index st' = startPos /\
     urls !! Z.to_nat startPos = Some url /\
     stream st' = [StreamBegin url mimetype]) /\
  (exists st' url,
     nextStream 1 (begin src) = Some st' /\
     index st' = (if 2 <=? Z.of_nat (length urls) then 1 else 0) /\
     urls !! Z.to_nat (index st') = Some url /\
     stream st' = [StreamBegin url mimetype]).
Proof.
  intros Hne src.
  assert (Hwf : wf src).
  { split; [reflexivity|]. unfold src. simpl. destruct urls; [contradiction|].
    simpl. lia. }
  split; [reflexivity|]. split; [|split].
  - intros ->. reflexivity.
  - intros Hin. destruct (nextStream_spec 1 src Hwf) as (url & Hurl & Hnext).
    cbv zeta in Hurl, Hnext.
    replace (pos src + 1) with startPos in * by (unfold src; simpl; lia).
    change (max src) with (Z.of_nat (length urls)) in *.
    destruct (Z.leb_spec 0 startPos); [|lia].
    destruct (Z.ltb_spec startPos (Z.of_nat (length urls))); [|lia].
    simpl in Hurl, Hnext.
    eexists _, url. split; [exact Hnext|]. split; [reflexivity|].
    split; [|reflexivity].
    unfold url_at in Hurl. destruct (Z.ltb_spec startPos 0); [lia|]. exact Hurl.
  - assert (Hwfb : wf (begin src)) by exact Hwf.
    destruct (nextStream_spec 1 (begin src) Hwfb) as (url & Hurl & Hnext).
    cbv zeta in Hurl, Hnext.
    change (pos (begin src) + 1) with 1 in *.
    change (max (begin src)) with (Z.of_nat (length urls)) in *.
    change (0 <=? 1) with true in *. cbn [andb] in *.
    assert (Hsame : (1 <? Z.of_nat (length urls)) = (2 <=? Z.of_nat (length urls))).
    { destruct (Z.ltb_spec 1 (Z.of_nat (length urls)));
        destruct (Z.leb_spec 2 (Z.of_nat (length urls))); lia. }
    rewrite Hsame in Hurl, Hnext.
    eexists _, url. split; [exact Hnext|]. split; [reflexivity|].
    split; [|reflexivity].
    unfold index. cbn [pos open set_pos].
    unfold url_at in Hurl.
    destruct (2 <=? Z.of_nat (length urls)); simpl in Hurl |- *; exact Hurl.
Qed.

End AudioSourceURLFacts.

(** * The further properties on concrete objects *)

Section MoreConcrete.

Import AudioFFTBase AudioFFTNotions TableDriver Examples MoreExamples.

Lemma write_transform_count_witness :
  exists st' : AudioFFTBase.t,
    write clock 10 four_frames started4 = Done (16, st') /\
    current_pos st' = (0 + 4) mod 4 /\
    Z.of_nat (count_events is_fft (trace st')) =
      Z.of_nat (count_events is_fft (trace started4)) + (0 + 4) / 4 /\
    Z.of_nat (count_events is_callback (trace st')) =
      Z.of_nat (count_events is_callback (trace started4)) + (0 + 4) / 4 /\
    count_events is_setvalue (trace st') =
      (count_events is_setvalue (trace started4) + 4)%nat.
Proof.
  apply (write_transform_count clock Int16 four_frames started4 10).
  - reflexivity.
  - reflexivity.
  - vm_compute. discriminate.
  - split; [vm_compute; split; [discriminate|reflexivity]|]. left. reflexivity.
  - vm_compute. split; [discriminate|reflexivity].
  - vm_compute. lia.
Defined.

Lemma write_below_window_witness :
  exists st' : AudioFFTBase.t,
    write clock 10 three_samples started8 = Done (6, st') /\
    resultTime st' = resultTime started8 /\
    current_pos st' = 0 + 2 /\
    trace st' = trace started8 ++ setvalue_events 0 [1; 3].
Proof.
  apply (write_below_window clock Int16 three_samples started8 10).
  - reflexivity.
  - reflexivity.
  - vm_compute. discriminate.
  - split; [vm_compute; split; [discriminate|reflexivity]|]. right.
    vm_compute. reflexivity.
  - vm_compute. reflexivity.
  - vm_compute. lia.
Defined.

Lemma setvalue_inside_window_witness :
  exists st' : AudioFFTBase.t,
    calls clock 20 session (AudioFFTBase.new 4 (TableDriver.of_magnitudes [])) = Done st' /\
    Forall (in_window 4) (trace st').
Proof.
  eexists. split; [vm_compute; reflexivity|].
  apply (setvalue_inside_window clock 4 (TableDriver.of_magnitudes []) session 20%nat).
  - lia.
  - vm_compute. reflexivity.
Defined.

Lemma zero_length_window_witness :
  exists st' : AudioFFTBase.t,
    write clock 10 two_samples started0 = Done (4, st') /\
    current_pos st' = 0 /\
    Forall (in_window 1) (trace st') /\
    count_events is_fft (trace st') =
      (count_events is_fft (trace started0) + 2)%nat /\
    count_events is_setvalue (trace st') =
      (count_events is_setvalue (trace started0) + 2)%nat.
Proof.
  apply (zero_length_window clock Int16 two_samples started0 10).
  - reflexivity.
  - reflexivity.
  - vm_compute. discriminate.
  - split; [vm_compute; split; [discriminate|reflexivity]|]. left. reflexivity.
  - reflexivity.
  - reflexivity.
  - repeat constructor.
  - vm_compute. lia.
Defined.

Lemma write_over_read_witness :
  write clock 10 three_samples started8_right = OverRead.
Proof.
  apply (write_over_read clock Int16 three_samples started8_right 10).
  - reflexivity.
  - reflexivity.
  - vm_compute. discriminate.
  - vm_compute. split; [reflexivity|discriminate].
  - vm_compute. reflexivity.
  - vm_compute. lia.
Defined.

Lemma write_never_returns_without_channels_witness :
  write clock 1000 two_samples started8_no_channel = OutOfFuel.
Proof.
  refine (write_never_returns_without_channels clock Int16 two_samples
            started8_no_channel _ _ _ _ _ 1000%nat).
  - reflexivity.
  - reflexivity.
  - reflexivity.
  - vm_compute. discriminate.
  - vm_compute. discriminate.
Defined.

Lemma write_chunks_witness :
  (exists st1 st2 : @AudioFFTBase.t TableDriver.t,
     write clock 10 two_samples started8 = Done (4, st1) /\
     write clock 10 (two_samples ++ three_samples) started8 = Done (10, st2) /\
     write clock 10 three_samples st1 = Done (6, st2)) /\
  (exists st1 st2 : @AudioFFTBase.t FragileDriver.t,
     write clock 10 two_samples started8_fragile = Done (4, st1) /\
     write clock 10 (two_samples ++ three_samples) started8_fragile =
       Done (10, st2) /\
     write clock 10 three_samples st1 = Done (0, st1) /\
     current_pos st1 = 1 /\ current_pos st2 = 3).
Proof.
  split.
  - destruct (write_chunks clock Int16 two_samples three_samples 1 started8 10)
      as (st1 & H1 & H12 & H2).
    + reflexivity.
    + reflexivity.
    + vm_compute. discriminate.
    + reflexivity.
    + split; [vm_compute; split; [discriminate|reflexivity]|]. right.
      vm_compute. reflexivity.
    + vm_compute. lia.
    + vm_compute in H1. injection H1 as <-.
      eexists. eexists. split; [vm_compute; reflexivity|].
      split; [exact H12|]. exact H2.
  - destruct (write_chunks clock Int16 two_samples three_samples 1
                started8_fragile 10) as (st1 & H1 & H12 & H2).
    + reflexivity.
    + reflexivity.
    + vm_compute. discriminate.
    + reflexivity.
    + split; [vm_compute; split; [discriminate|reflexivity]|]. right.
      vm_compute. reflexivity.
    + vm_compute. lia.
    + vm_compute in H1. injection H1 as <-.
      eexists. eexists. split; [vm_compute; reflexivity|].
      split; [exact H12|]. split; [exact H2|].
      split; vm_compute; reflexivity.
Defined.

Lemma availableForWrite_window_witness :
  exists st' : AudioFFTBase.t,
    write clock 10 four_frames tone8 = Done (16, st') /\
    current_pos st' = 0 /\
    count_events is_fft (trace st') = S (count_events is_fft (trace tone8)).
Proof.
  destruct (availableForWrite_window clock Int16 four_frames tone8 10)
    as (st' & Hw & Hmono & _).
  - reflexivity.
  - reflexivity.
  - reflexivity.
  - vm_compute. discriminate.
  - vm_compute. discriminate.
  - split; [vm_compute; split; [discriminate|reflexivity]|]. left. reflexivity.
  - reflexivity.
  - vm_compute. lia.
  - exists st'. split; [exact Hw|]. apply Hmono. reflexivity.
Defined.

Lemma setAudioInfo_restarts_window_witness :
  let st1 := setAudioInfo 8000 1 16 started8 in
  cfg st1 = AudioFFTConfig.mk 8000 1 16 None 0 /\
  current_pos st1 = 0 /\
  exists st2 : AudioFFTBase.t,
    write clock 10 four_frames st1 = Done (16, st2) /\
    current_pos st2 = 8 mod 8 /\
    Z.of_nat (count_events is_fft (trace st2)) =
      Z.of_nat (count_events is_fft (trace started8)) + 8 / 8.
Proof.
  destruct (setAudioInfo_restarts_window clock 8000 1 16 Int16 four_frames
              started8 10) as (Hcfg & _ & _ & Hpass).
  destruct (Hpass eq_refl) as (_ & Hpos & _ & Hwrite).
  split; [exact Hcfg|]. split; [exact Hpos|].
  apply Hwrite.
  - vm_compute. discriminate.
  - reflexivity.
  - reflexivity.
  - lia.
  - split; [vm_compute; split; [discriminate|reflexivity]|]. left. reflexivity.
  - vm_compute. lia.
Defined.

Lemma begin_accepts_iff_witness :
  fst (begin mono16 (AudioFFTBase.new 8 (TableDriver.of_magnitudes []))) = true <->
  (8 = 0 \/ exists k, 0 <= k /\ 8 = 2 ^ k) /\
  FFTDriver.isValid (FFTDriver.begin 8 (TableDriver.of_magnitudes [])) = true.
Proof.
  apply (begin_accepts_iff mono16 8 (TableDriver.of_magnitudes [])).
  vm_compute. split; [discriminate|reflexivity].
Defined.

Lemma InsertSorted_behaviour_witness :
  fst (InsertSorted [AudioFFTResult.mk 1 (F32.of_int 3) F32.zero;
                     AudioFFTResult.mk 2 (F32.of_int 2) F32.zero]
                    (AudioFFTResult.mk 3 (F32.of_int 1) F32.zero)) =
  [AudioFFTResult.mk 1 (F32.of_int 3) F32.zero;
   AudioFFTResult.mk 2 (F32.of_int 2) F32.zero].
Proof.
  apply (proj1 (proj2 (proj2 (InsertSorted_behaviour _ _)))).
  repeat constructor.
Defined.

Lemma frequncyAsInt_of_result_witness :
  frequncyAsInt (result tone8) = Some (2 * 8000 / 8).
Proof.
  refine (eq_trans (frequncyAsInt_of_result tone8 3 _ _ _ _) _).
  - lia.
  - reflexivity.
  - vm_compute. split; [discriminate|reflexivity].
  - exists 2000. reflexivity.
  - reflexivity.
Defined.

Lemma radio_wf : AudioSourceURL.wf radio.
Proof. split; [reflexivity|]. vm_compute. discriminate. Qed.

Lemma selectStream_clamps_witness :
  exists st' url,
    AudioSourceURL.selectStream 7 radio = Some st' /\
    AudioSourceURL.index st' = Z.min (Z.max 7 0) (3 - 1) /\
    0 <= AudioSourceURL.index st' < 3 /\
    AudioSourceURL.toStr st' = Some url /\
    AudioSourceURL.stream st' =
      [] ++ [] ++ [AudioSourceURL.StreamBegin url "audio/mp3"%string] /\
    AudioSourceURL.started st' = true.
Proof. apply (selectStream_clamps 7 radio). exact radio_wf. Defined.


Lemma calls_stay_inside_array_witness :
  exists st',
    AudioSourceURL.calls radio_session radio = Some st' /\
    AudioSourceURL.max st' = 3 /\
    0 <= AudioSourceURL.index st' < 3 /\ is_Some (AudioSourceURL.toStr st').
Proof.
  destruct (calls_stay_inside_array radio_session radio radio_wf)
    as (st' & Hrun & Hmax & Hin).
  exists st'. split; [exact Hrun|]. split; [exact Hmax|].
  apply Hin. right. exists AudioSourceURL.CallBegin.
  split; [vm_compute; tauto|]. split; discriminate.
Defined.

Lemma stream_protocol_witness :
  exists st',
    AudioSourceURL.calls radio_session radio = Some st' /\
    AudioSourceURL.replay false (AudioSourceURL.stream st') =
      Some (AudioSourceURL.started st').
Proof.
  eexists. split; [vm_compute; reflexivity|].
  apply (stream_protocol
           ["http://a"%string; "http://b"%string; "http://c"%string]
           "audio/mp3"%string 0 radio_session).
  vm_compute. reflexivity.
Defined.

Lemma nextStream_cycles_witness :
  exists st',
    AudioSourceURL.calls (replicate 3 (AudioSourceURL.CallNext 1))
      (AudioSourceURL.begin radio) = Some st' /\
    AudioSourceURL.index st' = (0 + 3) mod 3 /\
    (3 = 3 -> AudioSourceURL.index st' = 0) /\
    map Some (AudioSourceURL.opened_urls (AudioSourceURL.stream st')) =
      [] ++ [Some "http://b"%string; Some "http://c"%string; Some "http://a"%string].
Proof.
  apply (nextStream_cycles 3 (AudioSourceURL.begin radio)).
  - exact radio_wf.
  - vm_compute. split; [discriminate|reflexivity].
Defined.

Lemma constructor_start_position_witness :
  exists st' url,
    AudioSourceURL.nextStream 1 radio = Some st' /\
    AudioSourceURL.index st' = 0 /\
    ["http://a"%string; "http://b"%string; "http://c"%string] !! 0%nat = Some url /\
    AudioSourceURL.stream st' = [AudioSourceURL.StreamBegin url "audio/mp3"%string].
Proof.
  apply (proj1 (proj2 (proj2 (constructor_start_position
           ["http://a"%string; "http://b"%string; "http://c"%string]
           "audio/mp3"%string 0 ltac:(discriminate))))).
  vm_compute. split; [discriminate|reflexivity].
Defined.

End MoreConcrete.
